(** * Chunk splitting and sequential synthesis of the TTS service

    A shallow embedding of [synthesize_with_xtts_streaming]
    (services/tts_service/xtts_integration.py) and of the streaming wrapper
    [generate_audio_chunks] (services/tts_service/main.py), together with the
    properties of the chunk splitter and of the sequential driver.

    A Python [str] is a sequence of Unicode code points: it is modelled as a
    list of code points, each an [N].  The integer [chunk_size] is a [Z]. *)

From Stdlib Require Import String Ascii List NArith ZArith Bool Lia.
Import ListNotations.

Set Implicit Arguments.

(** ** Python strings *)

Definition char := N.
Definition str := list char.

(** A string literal: the code points of its characters. *)
Definition py (s : string) : str := map N_of_ascii (list_ascii_of_string s).
Arguments py s%_string.

(** [bool(s)] for a string: true exactly when it is not empty. *)
Definition truthy (s : str) : bool :=
  match s with
  | [] => false
  | _ :: _ => true
  end.

(** [len(s)], as a Python integer. *)
Definition len (s : str) : Z := Z.of_nat (length s).

(** The characters [str.strip()] removes and the regex class [\s] matches
    (for a [str] pattern both test [Py_UNICODE_ISSPACE]). *)
Definition is_space (c : char) : bool :=
  ((9 <=? c) && (c <=? 13) || (28 <=? c) && (c <=? 32)
   || (c =? 133) || (c =? 160) || (c =? 5760)
   || (8192 <=? c) && (c <=? 8202)
   || (c =? 8232) || (c =? 8233) || (c =? 8239) || (c =? 8287)
   || (c =? 12288))%N.

(** The characters of the string ['.!?'], in that order. *)
Definition terminators : str := [46; 33; 63]%N.

(** The regex class [[.!?]]. *)
Definition is_punct (c : char) : bool :=
  ((c =? 46) || (c =? 33) || (c =? 63))%N.

(** The regex class [[\s\n]]. *)
Definition is_space_or_newline (c : char) : bool :=
  is_space c || (c =? 10)%N.

Section Runs.
Variable A : Type.
Variable p : A -> bool.

Fixpoint take_while (l : list A) : list A :=
  match l with
  | [] => []
  | x :: l' => if p x then x :: take_while l' else []
  end.

Fixpoint drop_while (l : list A) : list A :=
  match l with
  | [] => []
  | x :: l' => if p x then drop_while l' else l
  end.
End Runs.

(** [s.lstrip()], [s.rstrip()] and [s.strip()] without argument. *)
Definition lstrip (s : str) : str := drop_while is_space s.
Definition rstrip (s : str) : str := rev (drop_while is_space (rev s)).
Definition strip (s : str) : str := rstrip (lstrip s).

(** [p in part] for a one-character string [p]. *)
Definition contains (c : char) (part : str) : bool :=
  existsb (N.eqb c) part.

(** [any(p in part for p in '.!?')]. *)
Definition any_terminator (part : str) : bool :=
  existsb (fun p => contains p part) terminators.

(** ** The call of [re.split] on the sentence pattern

    The pattern is one capturing group: one or more of the characters
    [.], [!], [?], then any number of characters of the class [[\s\n]]. *)

(** The pattern tried at the start of [l]: a greedy non-empty run of
    [[.!?]], then a greedy run of [[\s\n]].  Both runs are maximal and the
    pattern has nothing after them, so the engine never backtracks.
    Returns the matched text and what follows it. *)
Definition match_at (l : str) : option (str * str) :=
  match take_while is_punct l with
  | [] => None
  | ps =>
      let r := drop_while is_punct l in
      Some (ps ++ take_while is_space_or_newline r,
            drop_while is_space_or_newline r)
  end.

(** The leftmost match: the text before it, the match, the text after. *)
Fixpoint search (l : str) : option (str * str * str) :=
  match match_at l with
  | Some (m, rest) => Some ([], m, rest)
  | None =>
      match l with
      | [] => None
      | c :: l' =>
          match search l' with
          | Some (pre, m, rest) => Some (c :: pre, m, rest)
          | None => None
          end
      end
  end.

(** The split loop: the text before each match, then the captured group,
    and the rest of the text after the last match.  Every match consumes at
    least one character, so [length text] rounds are enough. *)
Fixpoint re_split_from (fuel : nat) (text : str) : list str :=
  match fuel with
  | O => [text]
  | S fuel' =>
      match search text with
      | None => [text]
      | Some (pre, m, rest) => pre :: m :: re_split_from fuel' rest
      end
  end.

Definition re_split (text : str) : list str :=
  re_split_from (length text) text.

(** ** The chunk splitter (xtts_integration.py, lines 323-341) *)

(** The [for] loop over [sentences], with the two variables it updates. *)
Fixpoint recombine (chunk_size : Z) (sentences : list str)
    (text_chunks : list str) (current_chunk : str) : list str * str :=
  match sentences with
  | [] => (text_chunks, current_chunk)
  | part :: sentences' =>
      let current_chunk := current_chunk ++ part in
      if (truthy (strip part) && any_terminator part)
         || (chunk_size <=? len current_chunk)%Z
      then
        if truthy (strip current_chunk)
        then recombine chunk_size sentences'
               (text_chunks ++ [strip current_chunk]) []
        else recombine chunk_size sentences' text_chunks current_chunk
      else recombine chunk_size sentences' text_chunks current_chunk
  end.

(** The value of [text_chunks] when the driver loop starts. *)
Definition text_chunks (text : str) (chunk_size : Z) : list str :=
  let sentences := re_split text in
  let '(text_chunks, current_chunk) := recombine chunk_size sentences [] [] in
  let text_chunks :=
    if truthy (strip current_chunk)
    then text_chunks ++ [strip current_chunk]
    else text_chunks in
  match text_chunks with
  | [] => [text]
  | _ :: _ => text_chunks
  end.

(** The specification calls the splitter [split(text, target_size)]. *)
Definition split (text : str) (target_size : Z) : list str :=
  text_chunks text target_size.

(** ** Notions used to state the properties of the splitter *)

(** The sentences [re.split] delimits: each text part with the separator
    that follows it, and the text after the last separator. *)
Fixpoint pair_up (parts : list str) : list (str * str) * str :=
  match parts with
  | [] => ([], [])
  | [last] => ([], last)
  | body :: term :: parts' =>
      let '(sentences, last) := pair_up parts' in
      ((body, term) :: sentences, last)
  end.

(** What the loop makes of one sentence (see [recombine_sentence]): the
    size test cuts the body from its separator when the body alone has
    reached [chunk_size] and is not whitespace-only; otherwise sentence and
    separator stay together. *)
Definition sentence_chunks (chunk_size : Z) (sentence : str * str)
    : list str :=
  let '(body, term) := sentence in
  if (chunk_size <=? len body)%Z && truthy (strip body)
  then [strip body; strip term]
  else [strip (body ++ term)].

(** What becomes of the text after the last separator. *)
Definition last_chunk (last : str) : list str :=
  if truthy (strip last) then [strip last] else [].

(** A string of whitespace only (the empty string included). *)
Definition blank (s : str) : bool := forallb is_space s.

(** A text has a sentence terminator. *)
Definition has_terminator (s : str) : bool := existsb is_punct s.

(** Whitespace normalisation for comparing a text with its chunks: all
    whitespace is dropped, every other character is kept in place. *)
Definition squash (s : str) : str := filter (fun c => negb (is_space c)) s.

(** [chunked cs text]: [text] is the chunks [cs], in order, with a
    whitespace-only gap before each chunk and after the last one. *)
Inductive chunked : list str -> str -> Prop :=
| chunked_nil : forall w, blank w = true -> chunked [] w
| chunked_cons : forall w c cs rest,
    blank w = true -> chunked cs rest -> chunked (c :: cs) (w ++ c ++ rest).

(** A chunk as the loop appends it: not whitespace-only, and with no
    whitespace at either end. *)
Definition trimmed (c : str) : Prop := blank c = false /\ strip c = c.

(** What one match of the pattern looks like: it starts with a terminator. *)
Definition separator (m : str) : Prop :=
  exists c m', m = c :: m' /\ is_punct c = true.

(** The shape of the list [re.split] returns: text without terminator,
    separator, ..., text without terminator. *)
Inductive sentence_parts : list str -> Prop :=
| parts_last : forall last,
    has_terminator last = false -> sentence_parts [last]
| parts_cons : forall body term parts,
    has_terminator body = false -> separator term ->
    sentence_parts parts -> sentence_parts (body :: term :: parts).

(** ** The sequential driver (xtts_integration.py, lines 343-374) *)

Definition bytes := list Byte.byte.

Section Driver.
(** The inference layer is external: [World] is its state (model cache,
    device, temporary files) and [Exn] the exceptions it raises. *)
Variable World : Type.
Variable Exn : Type.

(** How a call of the synthesis primitive ends. *)
Inductive outcome : Type :=
| Returned (chunk_audio : bytes)
| Raised (e : Exn).

(** [synthesize_with_xtts(text=chunk_text, ...)]: it returns the audio or
    raises (it logs and re-raises what the model raises; those records are
    its own and stay in [World]).  The other arguments are the same at
    every call of one request. *)
Variable synthesize_with_xtts : World -> str -> outcome * World.

(** The records the driver hands to its logger. *)
Inductive log_record : Type :=
| Info_split (total : nat)
| Info_first_chunk (size : nat)
| Debug_generated (index total size : nat)
| Error_generating (index total : nat) (e : Exn).

(** What the generator does, in order, when it is consumed to its end. *)
Inductive event : Type :=
| Log (r : log_record)
| Call (chunk_text : str)
| Yield (chunk_audio : bytes).

(** The [for i, chunk_text in enumerate(text_chunks)] loop, from index
    [i] on; [total] is [len(text_chunks)]. *)
Fixpoint drive (total i : nat) (chunks : list str) (first_chunk : bool)
    (w : World) : list event * World :=
  match chunks with
  | [] => ([], w)
  | chunk_text :: chunks' =>
      if negb (truthy (strip chunk_text))
      then drive total (S i) chunks' first_chunk w
      else
        match synthesize_with_xtts w chunk_text with
        | (Returned chunk_audio, w') =>
            let '(evs, w'') := drive total (S i) chunks' false w' in
            (Call chunk_text
               :: Log (if first_chunk
                       then Info_first_chunk (length chunk_audio)
                       else Debug_generated (i + 1) total
                              (length chunk_audio))
               :: Yield chunk_audio :: evs, w'')
        | (Raised e, w') =>
            let '(evs, w'') := drive total (S i) chunks' first_chunk w' in
            (Call chunk_text
               :: Log (Error_generating (i + 1) total e) :: evs, w'')
        end
  end.

Definition synthesize_with_xtts_streaming (text : str) (chunk_size : Z)
    (w : World) : list event * World :=
  let text_chunks := text_chunks text chunk_size in
  let '(evs, w') := drive (length text_chunks) 0 text_chunks true w in
  (Log (Info_split (length text_chunks)) :: evs, w').

(** [generate_audio_chunks] of main.py re-yields every chunk of the
    stream.  Its [except Exception] fallback needs an exception leaving
    the generator, and the driver catches each one the primitive raises:
    the wrapper adds nothing to the events.  The request does not pass
    [chunk_size], so the default of 150 applies. *)
Definition generate_audio_chunks (text : str) (w : World)
    : list event * World :=
  synthesize_with_xtts_streaming text 150 w.

(** The audio the consumer receives. *)
Fixpoint yields (evs : list event) : list bytes :=
  match evs with
  | [] => []
  | Yield a :: evs' => a :: yields evs'
  | _ :: evs' => yields evs'
  end.

(** The failures the logger receives. *)
Fixpoint errors (evs : list event) : list log_record :=
  match evs with
  | [] => []
  | Log (Error_generating i total e) :: evs' =>
      Error_generating i total e :: errors evs'
  | _ :: evs' => errors evs'
  end.

(** The chunks handed to the synthesis primitive. *)
Fixpoint calls (evs : list event) : list str :=
  match evs with
  | [] => []
  | Call c :: evs' => c :: calls evs'
  | _ :: evs' => calls evs'
  end.

(** The primitive called on each text of [cs] in turn, from state [w]. *)
Fixpoint outcomes (cs : list str) (w : World) : list outcome :=
  match cs with
  | [] => []
  | c :: cs' =>
      let '(o, w') := synthesize_with_xtts w c in
      o :: outcomes cs' w'
  end.

Definition audio_of (os : list outcome) : list bytes :=
  flat_map (fun o => match o with Returned a => [a] | Raised _ => [] end) os.

Definition failures_of (os : list outcome) : list Exn :=
  flat_map (fun o => match o with Returned _ => [] | Raised e => [e] end) os.
End Driver.

Arguments Returned {Exn} chunk_audio.
Arguments Raised {Exn} e.
Arguments Info_split {Exn} total.
Arguments Info_first_chunk {Exn} size.
Arguments Debug_generated {Exn} index total size.
Arguments Call {Exn} chunk_text.
Arguments Yield {Exn} chunk_audio.

(** The chunks the driver hands to the primitive: those whose
    [chunk_text.strip()] is not empty. *)
Definition attempted (chunks : list str) : list str :=
  filter (fun c => truthy (strip c)) chunks.

(** Inference layers for the examples: one whose every call raises, one
    whose every call returns, and one that counts its calls and raises at
    the second only. *)
Definition always_raises (w : unit) (chunk_text : str)
    : outcome unit * unit :=
  (Raised tt, w).

Definition always_returns (w : unit) (chunk_text : str)
    : outcome unit * unit :=
  (Returned [Byte.x52; Byte.x49; Byte.x46; Byte.x46], w).

Definition second_call_raises (w : nat) (chunk_text : str)
    : outcome unit * nat :=
  (if Nat.eqb w 1 then Raised tt
   else Returned (map (fun c => match Byte.of_N c with
                                | Some b => b
                                | None => Byte.x00
                                end) chunk_text),
   S w).

(** ** Further notions on chunks and on the driver's events *)

(** The last character of a chunk is a sentence terminator. *)
Definition ends_with_terminator (c : str) : bool :=
  match rev c with
  | [] => false
  | x :: _ => is_punct x
  end.

(** A separator as the pattern matches it: a non-empty run of terminators,
    then a run of whitespace. *)
Definition separator_run (m : str) : Prop :=
  exists ps ws,
    m = ps ++ ws /\ ps <> [] /\ forallb is_punct ps = true /\ blank ws = true.

(** The "first audio chunk ready" records of a run. *)
Fixpoint first_chunk_logs (Exn : Type) (evs : list (event Exn)) : nat :=
  match evs with
  | [] => 0
  | Log (Info_first_chunk _) :: evs' => S (first_chunk_logs evs')
  | _ :: evs' => first_chunk_logs evs'
  end.

(** No audio was yielded. *)
Definition yielded_nothing (Exn : Type) (evs : list (event Exn)) : bool :=
  match yields evs with
  | [] => true
  | _ :: _ => false
  end.

(** ** Transcript assembly of the STT service (stt_service/main.py,
    lines 89-102 and 112) *)

(** [sep.join(parts)]. *)
Fixpoint join (sep : str) (parts : list str) : str :=
  match parts with
  | [] => []
  | [part] => part
  | part :: parts' => part ++ sep ++ join sep parts'
  end.

(** The loop over the segments of faster-whisper appends
    [segment.text.strip()] to [text_parts]; [segments] holds the texts of the
    segments, in the order the model yields them. *)
Definition text_parts (segments : list str) : list str :=
  map strip segments.

(** [full_text = " ".join(text_parts).strip()]. *)
Definition full_text (segments : list str) : str :=
  strip (join (py " ") (text_parts segments)).

(** ** Resolution of the reference path (tts_service/main.py,
    lines 160-203) *)

Section ReferencePath.
(** [os.path.isabs], [os.path.join], [os.path.abspath] and
    [os.path.exists], the last one on the file system as it is during the
    request; [current_dir] is the directory of main.py and [project_root]
    the directory two levels above it. *)
Variable isabs : str -> bool.
Variable path_join : str -> list str -> str.
Variable abspath : str -> str.
Variable path_exists : str -> bool.
Variable current_dir : str.
Variable project_root : str.

(** The [for path in possible_paths] loop with its [else] branch. *)
Fixpoint first_existing (possible_paths : list str) : str :=
  match possible_paths with
  | [] => []
  | path :: possible_paths' =>
      let abs_path := abspath path in
      if path_exists abs_path then abs_path
      else first_existing possible_paths'
  end.

Definition resolved_ref_path (reference_path : str) : str :=
  if truthy reference_path then
    if negb (isabs reference_path) then
      let project_root_path := path_join project_root [reference_path] in
      if path_exists project_root_path then abspath project_root_path
      else
        let current_dir_path := path_join current_dir [reference_path] in
        if path_exists current_dir_path then abspath current_dir_path
        else
          first_existing
            [path_join project_root [reference_path];
             path_join current_dir [py ".."; py ".."; reference_path];
             path_join current_dir [py ".."; reference_path];
             reference_path]
    else
      if path_exists reference_path then reference_path else []
  else reference_path.

(** [resolved_ref_path if resolved_ref_path else None], the argument the
    synthesis gets. *)
Definition reference_argument (reference_path : str) : option str :=
  if truthy (resolved_ref_path reference_path)
  then Some (resolved_ref_path reference_path)
  else None.
End ReferencePath.

(** ** [synthesize_with_xtts] (xtts_integration.py, lines 22-294) *)

(** Equality of two strings, [a == b]. *)
Fixpoint str_eqb (a b : str) : bool :=
  match a, b with
  | [], [] => true
  | x :: a', y :: b' => (x =? y)%N && str_eqb a' b'
  | _, _ => false
  end.

(** The files the function works with: the content of each path that
    exists.  Creating, writing and removing a file succeed. *)
Definition FS := str -> option bytes.

Definition os_path_exists (path : str) (fs : FS) : bool :=
  match fs path with
  | Some _ => true
  | None => false
  end.

Definition write_file (path : str) (data : bytes) (fs : FS) : FS :=
  fun q => if str_eqb q path then Some data else fs q.

Definition os_unlink (path : str) (fs : FS) : FS :=
  fun q => if str_eqb q path then None else fs q.

Section Xtts.
(** [Model] is the loaded network, [Env] what the libraries keep outside
    the module (downloads, devices, randomness). *)
Variable Model : Type.
Variable Exn : Type.
Variable Env : Type.

(** The model object: the attribute [synthesizer.model.inference_steps] is
    the only part of it the function reads or writes; [None] when the
    attribute is missing or holds [None]. *)
Record model_obj : Type := {
  net : Model;
  inference_steps : option Z
}.

(** The globals [_model_cache] and [_device], the files and the
    environment. *)
Record xtts_state : Type := {
  _model_cache : option model_obj;
  _device : option str;
  files : FS;
  env : Env
}.

(** Whether [from TTS.api import TTS] succeeds, and the exception raised
    when it does not. *)
Variable tts_importable : bool.
Variable ImportError : Exn.

(** Lines 62-147: [TTS(...)], the move to the device and the optional
    speed-ups; [builtins.input] is patched during the call and restored in
    the [finally]. *)
Variable load_model : str -> FS -> Env -> (model_obj + Exn) * FS * Env.

(** [model.tts_to_file(text, file_path, speaker_wav, language)]: it
    returns or raises, and leaves [inference_steps] alone. *)
Variable tts_to_file :
  model_obj -> str -> str -> option str -> str -> FS -> Env ->
  option Exn * FS * Env.

(** The name [tempfile.NamedTemporaryFile(suffix=".wav", delete=False)]
    picks. *)
Variable named_temporary_file : FS -> Env -> str * Env.

(** What [open(temp_output, "rb")] raises when the file is missing. *)
Variable FileNotFoundError : Exn.

(** [_device != device]. *)
Definition device_differs (cached : option str) (device : str) : bool :=
  match cached with
  | None => true
  | Some d => negb (str_eqb d device)
  end.

(** Lines 56-160: the cached model, loaded first when there is none or
    when it was asked for another device (the test
    [_model_cache is None or _device != device] is the [None] branch and
    the [device_differs] test of the [Some] branch).  [_device] is assigned
    before the load is tried; when the load raises, the exception is
    re-raised and [_model_cache] is as it was. *)
Definition cached_model (device : str) (st : xtts_state)
    : (model_obj + Exn) * xtts_state :=
  match _model_cache st with
  | Some model =>
      if device_differs (_device st) device
      then
        match load_model device (files st) (env st) with
        | (inl tts, fs', env') =>
            (inl tts, {| _model_cache := Some tts; _device := Some device;
                         files := fs'; env := env' |})
        | (inr e, fs', env') =>
            (inr e, {| _model_cache := _model_cache st;
                       _device := Some device;
                       files := fs'; env := env' |})
        end
      else (inl model, st)
  | None =>
      match load_model device (files st) (env st) with
      | (inl tts, fs', env') =>
          (inl tts, {| _model_cache := Some tts; _device := Some device;
                       files := fs'; env := env' |})
      | (inr e, fs', env') =>
          (inr e, {| _model_cache := None; _device := Some device;
                     files := fs'; env := env' |})
      end
  end.

(** Lines 190-203: fewer inference steps, when the model has more than
    four.  Returns the model and [speed_optimized]. *)
Definition reduce_steps (model : model_obj) : model_obj * bool :=
  match inference_steps model with
  | Some original_steps =>
      if negb (original_steps =? 0)%Z && (4 <? original_steps)%Z
      then ({| net := net model; inference_steps := Some 4%Z |}, true)
      else (model, false)
  | None => (model, false)
  end.

(** Lines 212-219: the steps are set to 6 afterwards, whatever they
    were. *)
Definition restore_steps (model : model_obj) (speed_optimized : bool)
    : model_obj :=
  if speed_optimized
  then {| net := net model; inference_steps := Some 6%Z |}
  else model.

(** The [finally] of lines 229-231 and 288-290. *)
Definition remove_temp (temp_output : str) (fs : FS) : FS :=
  if os_path_exists temp_output fs then os_unlink temp_output fs else fs.

(** Lines 162-294, with the model of line 160.  The model object is the
    cached one, so what is done to its steps is done in the cache. *)
Definition generate (text : str) (reference_audio_path output_path : option str)
    (language : str) (stream : bool) (model : model_obj) (st : xtts_state)
    : outcome Exn * xtts_state :=
  let speaker_wav :=
    match reference_audio_path with
    | Some p => if truthy p && os_path_exists p (files st)
                then Some p else None
    | None => None
    end in
  let '(temp_output, env1) := named_temporary_file (files st) (env st) in
  let fs1 := write_file temp_output [] (files st) in
  let '(model1, speed_optimized) := reduce_steps model in
  let '(raised, fs2, env2) :=
    tts_to_file model1 text temp_output speaker_wav language fs1 env1 in
  match raised with
  | Some e =>
      (Raised e,
       {| _model_cache := Some model1; _device := _device st;
          files := remove_temp temp_output fs2; env := env2 |})
  | None =>
      let model2 := restore_steps model1 speed_optimized in
      match fs2 temp_output with
      | None =>
          (Raised FileNotFoundError,
           {| _model_cache := Some model2; _device := _device st;
              files := remove_temp temp_output fs2; env := env2 |})
      | Some audio_data =>
          let fs3 :=
            if stream then fs2
            else
              match output_path with
              | Some p => if truthy p then write_file p audio_data fs2
                          else fs2
              | None => fs2
              end in
          (Returned audio_data,
           {| _model_cache := Some model2; _device := _device st;
              files := remove_temp temp_output fs3; env := env2 |})
      end
  end.

Definition synthesize_with_xtts (text : str)
    (reference_audio_path output_path : option str) (device language : str)
    (stream : bool) (st : xtts_state) : outcome Exn * xtts_state :=
  if negb tts_importable then (Raised ImportError, st)
  else
    match cached_model device st with
    | (inr e, st') => (Raised e, st')
    | (inl model, st') =>
        generate text reference_audio_path output_path language stream
          model st'
    end.

(** The call the streaming driver makes for each chunk (lines 353-360). *)
Definition synthesize_chunk (reference_audio_path : option str)
    (device language : str) (st : xtts_state) (chunk_text : str)
    : outcome Exn * xtts_state :=
  synthesize_with_xtts chunk_text reference_audio_path None device language
    false st.

(** The module is loaded for [device]: a model is cached and [_device] is
    [device]. *)
Definition warm (device : str) (st : xtts_state) : Prop :=
  exists model,
    _model_cache st = Some model /\ device_differs (_device st) device = false.
End Xtts.

(** A file system for the examples: the only file is
    [/app/voice_references/default.wav]; paths are joined with [/], a path
    is absolute when it starts with [/], and [abspath] resolves a relative
    path against [/srv]. *)
Definition toy_isabs (p : str) : bool :=
  match p with
  | c :: _ => (c =? 47)%N
  | [] => false
  end.

Definition toy_join (a : str) (ps : list str) : str :=
  fold_left (fun acc p => if toy_isabs p then p else acc ++ py "/" ++ p) ps a.

Definition toy_abspath (p : str) : str :=
  if toy_isabs p then p else py "/srv/" ++ p.

Definition toy_exists (p : str) : bool :=
  str_eqb p (py "/app/voice_references/default.wav").

(** An inference layer for the examples: the loader returns a model with
    ten inference steps, [tts_to_file] writes a four-byte file, and the
    temporary file is always [/tmp/tmp.wav]. *)
Definition toy_load (device : str) (fs : FS) (e : unit)
    : (model_obj unit + unit) * FS * unit :=
  (inl {| net := tt; inference_steps := Some 10%Z |}, fs, e).

Definition toy_load_fails (device : str) (fs : FS) (e : unit)
    : (model_obj unit + unit) * FS * unit :=
  (inr tt, fs, e).

Definition toy_tts_to_file (model : model_obj unit) (text file_path : str)
    (speaker_wav : option str) (language : str) (fs : FS) (e : unit)
    : option unit * FS * unit :=
  (None, write_file file_path [Byte.x52; Byte.x49; Byte.x46; Byte.x46] fs, e).

Definition toy_temporary_file (fs : FS) (e : unit) : str * unit :=
  (py "/tmp/tmp.wav", e).

Definition toy_synthesize :=
  synthesize_with_xtts true tt toy_load toy_tts_to_file toy_temporary_file tt.

Definition toy_cold : xtts_state unit unit :=
  {| _model_cache := None; _device := None;
     files := fun _ => None; env := tt |}.

(** The state after a first request on the CPU. *)
Definition toy_on_cpu : xtts_state unit unit :=
  snd (toy_synthesize (py "Hi") None None (py "cpu") (py "en") false toy_cold).

(** * Examples *)

Example re_split_hello :
  re_split (py "Hello. How are you? I am fine.")
  = [py "Hello"; py ". "; py "How are you"; py "? "; py "I am fine";
     py "."; py ""].
Proof. reflexivity. Qed.

Example re_split_runs :
  re_split (py "Wait... What?!  ok")
  = [py "Wait"; py "... "; py "What"; py "?!  "; py "ok"].
Proof. reflexivity. Qed.

Example re_split_leading_terminator :
  re_split (py ".a") = [py ""; py "."; py "a"].
Proof. reflexivity. Qed.

(** U+001C and U+0085 are whitespace for [\s] and for [strip]. *)
Example re_split_unicode_space :
  re_split [120; 28; 46; 28; 133; 121]%N
  = [[120; 28]; [46; 28; 133]; [121]]%N.
Proof. reflexivity. Qed.

Example strip_unicode_space :
  strip [160; 12288; 120; 32; 121; 8232; 10]%N = [120; 32; 121]%N.
Proof. reflexivity. Qed.

Example split_hello_150 :
  split (py "Hello. How are you? I am fine.") 150
  = [py "Hello."; py "How are you?"; py "I am fine."].
Proof. reflexivity. Qed.

Example split_one_long_sentence :
  split (py "How are you?") 10 = [py "How are you"; py "?"].
Proof. vm_compute. reflexivity. Qed.

Example split_whitespace_only : split (py "  ") 10 = [py "  "].
Proof. vm_compute. reflexivity. Qed.

(** Three chunks, the second call of the primitive raises: the events of
    the whole run, in order. *)
Example streaming_second_fails :
  fst (synthesize_with_xtts_streaming second_call_raises
         (py "A. B. C.") 150 0)
  = [Log (Info_split 3);
     Call (py "A."); Log (Info_first_chunk 2);
     Yield [Byte.x41; Byte.x2e];
     Call (py "B."); Log (Error_generating 2 3 tt);
     Call (py "C."); Log (Debug_generated 3 3 2);
     Yield [Byte.x43; Byte.x2e]].
Proof. vm_compute. reflexivity. Qed.

(** The empty text: one empty chunk, skipped by the driver. *)
Example streaming_empty_text :
  fst (generate_audio_chunks always_returns (py "") tt)
  = [Log (Info_split 1)].
Proof. vm_compute. reflexivity. Qed.

(** * Properties *)

(** ** Runs of characters *)

Section RunFacts.
Variable A : Type.
Variable p : A -> bool.

Lemma take_drop_while (l : list A) :
  take_while p l ++ drop_while p l = l.
Proof.
  induction l as [|x l IH]; simpl; [reflexivity|].
  destruct (p x); simpl; [now rewrite IH | reflexivity].
Qed.

Lemma take_while_all (l : list A) : forallb p (take_while p l) = true.
Proof.
  induction l as [|x l IH]; simpl; [reflexivity|].
  destruct (p x) eqn:E; simpl; [now rewrite E | reflexivity].
Qed.

Lemma drop_while_stop (l : list A) x r :
  drop_while p l = x :: r -> p x = false.
Proof.
  induction l as [|y l IH]; simpl; [discriminate|].
  destruct (p y) eqn:E; [exact IH|].
  intros H; injection H as -> _; exact E.
Qed.

Lemma take_while_app (a b : list A) :
  forallb p a = true -> take_while p (a ++ b) = a ++ take_while p b.
Proof.
  induction a as [|x a IH]; simpl; [reflexivity|].
  intros H; apply andb_prop in H as [Hx Ha].
  now rewrite Hx, IH.
Qed.

Lemma drop_while_app (a b : list A) :
  forallb p a = true -> drop_while p (a ++ b) = drop_while p b.
Proof.
  induction a as [|x a IH]; simpl; [reflexivity|].
  intros H; apply andb_prop in H as [Hx Ha].
  now rewrite Hx, IH.
Qed.

Lemma drop_while_all (l : list A) :
  forallb p l = true -> drop_while p l = [].
Proof.
  intros H. rewrite <- (app_nil_r l), drop_while_app by exact H.
  reflexivity.
Qed.

Lemma take_while_id (l : list A) :
  forallb p l = true -> take_while p l = l.
Proof.
  intros H. rewrite <- (app_nil_r l) at 1.
  rewrite take_while_app by exact H. apply app_nil_r.
Qed.

Lemma drop_while_nil (l : list A) :
  drop_while p l = [] -> forallb p l = true.
Proof.
  induction l as [|x l IH]; simpl; [reflexivity|].
  destruct (p x); [exact IH | discriminate].
Qed.

Lemma take_while_none (l : list A) :
  existsb p l = false -> take_while p l = [].
Proof.
  destruct l as [|x l]; simpl; [reflexivity|].
  intros H; apply orb_false_elim in H as [-> _]; reflexivity.
Qed.

(** A run that stops inside [a] is not extended by what follows [a]. *)
Lemma drop_while_app_stop (a b : list A) x :
  p x = false -> drop_while p (a ++ x :: b) = drop_while p a ++ x :: b.
Proof.
  intros Hx. induction a as [|y a IH]; simpl.
  - now rewrite Hx.
  - destruct (p y); [exact IH | reflexivity].
Qed.
End RunFacts.

(** ** Stripping *)

Lemma blank_app (a b : str) : blank (a ++ b) = blank a && blank b.
Proof. apply forallb_app. Qed.

Lemma blank_rev (s : str) : blank (rev s) = blank s.
Proof.
  induction s as [|c s IH]; simpl; [reflexivity|].
  rewrite blank_app, IH. simpl. rewrite andb_true_r. apply andb_comm.
Qed.

Lemma rstrip_cons (c : char) (s : str) :
  is_space c = false -> rstrip (c :: s) = c :: rstrip s.
Proof.
  intros Hc. unfold rstrip. simpl.
  rewrite drop_while_app_stop by exact Hc.
  now rewrite rev_app_distr.
Qed.

Lemma rstrip_decompose (s : str) :
  exists w, blank w = true /\ s = rstrip s ++ w.
Proof.
  exists (rev (take_while is_space (rev s))). split.
  - rewrite blank_rev. apply take_while_all.
  - unfold rstrip. rewrite <- rev_app_distr, take_drop_while.
    symmetry; apply rev_involutive.
Qed.

Lemma strip_decompose (s : str) :
  exists w1 w2,
    blank w1 = true /\ blank w2 = true /\ s = w1 ++ strip s ++ w2.
Proof.
  destruct (rstrip_decompose (lstrip s)) as (w2 & Hw2 & E).
  exists (take_while is_space s), w2. repeat split.
  - apply take_while_all.
  - exact Hw2.
  - unfold strip. rewrite <- E. symmetry. apply take_drop_while.
Qed.

(** [s.strip()] is empty exactly when [s] is whitespace only. *)
Lemma truthy_strip (s : str) : truthy (strip s) = negb (blank s).
Proof.
  unfold strip. destruct (lstrip s) as [|c r] eqn:E.
  - unfold lstrip in E. apply drop_while_nil in E.
    unfold blank. now rewrite E.
  - pose proof (drop_while_stop _ _ E) as Hc.
    rewrite rstrip_cons by exact Hc. simpl.
    rewrite <- (take_drop_while is_space s).
    fold (lstrip s). rewrite E, blank_app. simpl.
    rewrite Hc. simpl. now rewrite andb_false_r.
Qed.

Lemma strip_blank (s : str) : blank s = true -> strip s = [].
Proof.
  intros H. pose proof (truthy_strip s) as T. rewrite H in T.
  destruct (strip s); [reflexivity | discriminate].
Qed.

(** A non-empty stripped string starts and ends with a character that is
    not whitespace: stripping it again changes nothing. *)
Lemma lstrip_strip (s : str) : lstrip (strip s) = strip s.
Proof.
  unfold strip. destruct (lstrip s) as [|c r] eqn:E; [reflexivity|].
  pose proof (drop_while_stop _ _ E) as Hc.
  rewrite rstrip_cons by exact Hc. unfold lstrip at 1. simpl.
  now rewrite Hc.
Qed.

Lemma rstrip_rstrip (s : str) : rstrip (rstrip s) = rstrip s.
Proof.
  unfold rstrip. rewrite rev_involutive.
  destruct (drop_while is_space (rev s)) as [|c r] eqn:E; [reflexivity|].
  pose proof (drop_while_stop _ _ E) as Hc.
  simpl. now rewrite Hc.
Qed.

Lemma strip_strip (s : str) : strip (strip s) = strip s.
Proof.
  unfold strip at 1. rewrite lstrip_strip.
  unfold strip. apply rstrip_rstrip.
Qed.

Lemma blank_strip (s : str) :
  truthy (strip s) = true -> blank (strip s) = false.
Proof.
  intros H. rewrite <- strip_strip, truthy_strip in H.
  now apply negb_true_iff in H.
Qed.

(** ** Terminators and whitespace *)

Lemma any_terminator_has (s : str) : any_terminator s = has_terminator s.
Proof.
  unfold any_terminator, has_terminator, terminators, contains.
  cbn [existsb].
  induction s as [|c s IH]; cbn [existsb]; [reflexivity|].
  rewrite <- IH. unfold is_punct.
  rewrite (N.eqb_sym c 46), (N.eqb_sym c 33), (N.eqb_sym c 63).
  destruct (46 =? c)%N, (33 =? c)%N, (63 =? c)%N; cbn [orb];
    rewrite ?orb_true_r, ?orb_false_r; reflexivity.
Qed.

Lemma punct_not_space (c : char) : is_punct c = true -> is_space c = false.
Proof.
  unfold is_punct. intros H.
  apply orb_prop in H as [H|H]; [apply orb_prop in H as [H|H]|];
    apply N.eqb_eq in H; subst c; reflexivity.
Qed.

Lemma space_or_newline (c : char) : is_space_or_newline c = is_space c.
Proof.
  unfold is_space_or_newline. destruct (N.eqb_spec c 10) as [->|_].
  - reflexivity.
  - apply orb_false_r.
Qed.

Lemma has_terminator_app (a b : str) :
  has_terminator (a ++ b) = has_terminator a || has_terminator b.
Proof. apply existsb_app. Qed.

Lemma blank_no_terminator (s : str) :
  blank s = true -> has_terminator s = false.
Proof.
  induction s as [|c s IH]; simpl; [reflexivity|].
  intros H; apply andb_prop in H as [Hc Hs]. rewrite (IH Hs).
  destruct (is_punct c) eqn:E; [|reflexivity].
  apply punct_not_space in E. congruence.
Qed.

(** ** Facts on [re.split] *)

Lemma separator_truthy (m : str) :
  separator m -> truthy (strip m) && any_terminator m = true.
Proof.
  intros (c & m' & -> & Hc).
  rewrite truthy_strip, any_terminator_has. simpl.
  now rewrite Hc, (punct_not_space _ Hc).
Qed.

Lemma match_at_some (l m rest : str) :
  match_at l = Some (m, rest) ->
  l = m ++ rest /\ separator m.
Proof.
  unfold match_at.
  destruct (take_while is_punct l) as [|c ps] eqn:E; [discriminate|].
  intros H; injection H as <- <-. split.
  - rewrite app_comm_cons, <- app_assoc.
    rewrite (take_drop_while is_space_or_newline (drop_while is_punct l)).
    rewrite <- E. symmetry. apply take_drop_while.
  - exists c, (ps ++ take_while is_space_or_newline (drop_while is_punct l)).
    split; [reflexivity|].
    pose proof (take_while_all is_punct l) as H. rewrite E in H.
    simpl in H. now apply andb_prop in H as [H _].
Qed.

Lemma match_at_none (l : str) :
  has_terminator l = false -> match_at l = None.
Proof.
  intros H. unfold match_at. now rewrite (take_while_none _ _ H).
Qed.

Lemma search_some (l pre m rest : str) :
  search l = Some (pre, m, rest) ->
  l = pre ++ m ++ rest /\ has_terminator pre = false /\ separator m.
Proof.
  revert pre. induction l as [|c l IH]; intros pre; simpl.
  - discriminate.
  - destruct (match_at (c :: l)) as [[m0 r0]|] eqn:E.
    + intros H; injection H as <- <- <-.
      apply match_at_some in E as [E S]. now repeat split.
    + destruct (search l) as [[[pre' m'] rest']|]; [|discriminate].
      intros H; injection H as <- <- <-.
      destruct (IH pre' eq_refl) as (El & Hp & S).
      repeat split; [now rewrite El | | exact S].
      simpl. rewrite Hp, orb_false_r.
      unfold match_at in E. simpl in E.
      destruct (is_punct c); [discriminate | reflexivity].
Qed.

Lemma search_none (l : str) :
  has_terminator l = false -> search l = None.
Proof.
  induction l as [|c l IH]; intros H.
  - reflexivity.
  - simpl search. rewrite (match_at_none _ H).
    simpl in H. apply orb_false_elim in H as [_ H].
    now rewrite (IH H).
Qed.

Lemma search_none_inv (l : str) :
  search l = None -> has_terminator l = false.
Proof.
  induction l as [|c l IH]; [reflexivity|].
  simpl search. unfold match_at. cbn [take_while has_terminator existsb].
  destruct (is_punct c); [discriminate|].
  destruct (search l) as [[[pre m] rest]|]; [discriminate|].
  intros _. now apply IH.
Qed.

Lemma search_shorter (l pre m rest : str) :
  search l = Some (pre, m, rest) -> length rest < length l.
Proof.
  intros H. apply search_some in H as (-> & _ & c & m' & -> & _).
  rewrite !length_app. simpl. lia.
Qed.

(** The rounds [re_split] allows are never used up. *)
Lemma re_split_from_enough (fuel fuel' : nat) (text : str) :
  length text <= fuel -> length text <= fuel' ->
  re_split_from fuel text = re_split_from fuel' text.
Proof.
  revert fuel' text. induction fuel as [|fuel IH]; intros fuel' text H H'.
  - destruct text; [|simpl in H; lia].
    destruct fuel'; reflexivity.
  - destruct fuel' as [|fuel'].
    + destruct text; [reflexivity | simpl in H'; lia].
    + simpl. destruct (search text) as [[[pre m] rest]|] eqn:E; [|reflexivity].
      apply search_shorter in E. do 2 f_equal. apply IH; lia.
Qed.

Lemma re_split_eq (text : str) :
  re_split text =
  match search text with
  | None => [text]
  | Some (pre, m, rest) => pre :: m :: re_split rest
  end.
Proof.
  unfold re_split. destruct text as [|c text]; [reflexivity|].
  cbn [length re_split_from].
  destruct (search (c :: text)) as [[[pre m] rest]|] eqn:E; [|reflexivity].
  apply search_shorter in E. simpl in E.
  do 2 f_equal. apply re_split_from_enough; lia.
Qed.

(** Induction on a text along the matches of the pattern. *)
Lemma re_split_ind (P : str -> Prop) :
  (forall text, search text = None -> P text) ->
  (forall text pre m rest,
      search text = Some (pre, m, rest) -> P rest -> P text) ->
  forall text, P text.
Proof.
  intros Hnone Hsome text.
  remember (length text) as k eqn:Ek.
  revert text Ek. induction k as [k IH] using lt_wf_ind. intros text ->.
  destruct (search text) as [[[pre m] rest]|] eqn:E.
  - apply (Hsome _ _ _ _ E).
    apply (IH (length rest)); [now apply search_shorter in E | reflexivity].
  - now apply Hnone.
Qed.

(** Nothing is lost: the parts are the text, cut in pieces. *)
Lemma re_split_concat (text : str) : concat (re_split text) = text.
Proof.
  induction text as [text E | text pre m rest E IH] using re_split_ind;
    rewrite re_split_eq, E; simpl.
  - apply app_nil_r.
  - rewrite IH. apply search_some in E as (-> & _). reflexivity.
Qed.

Lemma re_split_parts (text : str) : sentence_parts (re_split text).
Proof.
  induction text as [text E | text pre m rest E IH] using re_split_ind;
    rewrite re_split_eq, E.
  - constructor. now apply search_none_inv.
  - apply search_some in E as (_ & Hp & S). now constructor.
Qed.

(** ** Chunks in order, separated by whitespace *)

Lemma chunked_blank_r (cs : list str) (X w : str) :
  chunked cs X -> blank w = true -> chunked cs (X ++ w).
Proof.
  intros H Hw. induction H as [w0 H0 | w0 c cs rest H0 _ IH].
  - constructor. now rewrite blank_app, H0.
  - rewrite <- !app_assoc. now constructor.
Qed.

Lemma chunked_snoc (cs : list str) (X w c : str) :
  chunked cs X -> blank w = true -> chunked (cs ++ [c]) (X ++ w ++ c).
Proof.
  intros H Hw. induction H as [w0 H0 | w0 c0 cs rest H0 _ IH].
  - replace (w0 ++ w ++ c) with ((w0 ++ w) ++ c ++ [])
      by now rewrite app_nil_r, app_assoc.
    apply (chunked_cons (w0 ++ w) c).
    + now rewrite blank_app, H0.
    + now constructor.
  - rewrite <- !app_assoc. simpl. now constructor.
Qed.

Lemma chunked_nil_inv (X : str) : chunked [] X -> blank X = true.
Proof. now inversion 1. Qed.

Lemma squash_app (a b : str) : squash (a ++ b) = squash a ++ squash b.
Proof. apply filter_app. Qed.

Lemma squash_blank (w : str) : blank w = true -> squash w = [].
Proof.
  induction w as [|c w IH]; simpl; [reflexivity|].
  intros H; apply andb_prop in H as [Hc Hw]. now rewrite Hc, IH.
Qed.

Lemma chunked_squash (cs : list str) (X : str) :
  chunked cs X -> squash (concat cs) = squash X.
Proof.
  induction 1 as [w H | w c cs rest H _ IH]; simpl.
  - symmetry. now apply squash_blank.
  - rewrite !squash_app, IH, (squash_blank _ H). reflexivity.
Qed.

(** ** The recombining loop *)

Lemma trimmed_strip (s : str) : truthy (strip s) = true -> trimmed (strip s).
Proof.
  intros H. split; [now apply blank_strip | apply strip_strip].
Qed.

Lemma recombine_chunked (n : Z) (parts : list str) :
  forall (acc : list str) (cur X : str),
    chunked acc X ->
    exists X',
      chunked (fst (recombine n parts acc cur)) X' /\
      X' ++ snd (recombine n parts acc cur) = X ++ cur ++ concat parts.
Proof.
  induction parts as [|part parts IH]; intros acc cur X HX; simpl.
  - exists X. now rewrite app_nil_r.
  - destruct (truthy (strip part) && any_terminator part
              || (n <=? len (cur ++ part))%Z);
      [destruct (truthy (strip (cur ++ part))) eqn:T|].
    + destruct (strip_decompose (cur ++ part)) as (w1 & w2 & H1 & H2 & E).
      destruct (IH (acc ++ [strip (cur ++ part)]) [] (X ++ cur ++ part))
        as (X' & HX' & EX').
      * rewrite E at 2. rewrite 2!app_assoc.
        apply chunked_blank_r; [|exact H2].
        rewrite <- app_assoc. now apply chunked_snoc.
      * exists X'. split; [exact HX'|].
        rewrite EX'. simpl. now rewrite <- !app_assoc.
    + destruct (IH acc (cur ++ part) X HX) as (X' & HX' & EX').
      exists X'. split; [exact HX'|]. now rewrite EX', <- app_assoc.
    + destruct (IH acc (cur ++ part) X HX) as (X' & HX' & EX').
      exists X'. split; [exact HX'|]. now rewrite EX', <- app_assoc.
Qed.

Lemma recombine_trimmed (n : Z) (parts : list str) :
  forall (acc : list str) (cur : str),
    Forall trimmed acc -> Forall trimmed (fst (recombine n parts acc cur)).
Proof.
  induction parts as [|part parts IH]; intros acc cur H; simpl.
  - exact H.
  - destruct (truthy (strip part) && any_terminator part
              || (n <=? len (cur ++ part))%Z);
      [destruct (truthy (strip (cur ++ part))) eqn:T|]; apply IH; auto.
    apply Forall_app. split; [exact H|].
    constructor; [now apply trimmed_strip | constructor].
Qed.

(** The chunks collected before the whole-text fallback. *)
Lemma text_chunks_collected (text : str) (n : Z) :
  exists tc,
    chunked tc text /\ Forall trimmed tc /\
    text_chunks text n = match tc with [] => [text] | _ :: _ => tc end.
Proof.
  unfold text_chunks.
  destruct (@recombine_chunked n (re_split text) [] [] [])
    as (X' & HX' & E).
  { now constructor. }
  pose proof (@recombine_trimmed n (re_split text) [] [] (Forall_nil _))
    as Ht.
  rewrite re_split_concat in E. simpl in E.
  destruct (recombine n (re_split text) [] []) as [tc cur].
  simpl in HX', E, Ht.
  destruct (truthy (strip cur)) eqn:T.
  - exists (tc ++ [strip cur]). repeat split.
    + destruct (strip_decompose cur) as (w1 & w2 & H1 & H2 & Ec).
      rewrite <- E. remember (strip cur) as sc. rewrite Ec, 2!app_assoc.
      apply chunked_blank_r; [|exact H2].
      rewrite <- app_assoc. now apply chunked_snoc.
    + apply Forall_app. split; [exact Ht|].
      constructor; [now apply trimmed_strip | constructor].
  - exists tc. repeat split; [|exact Ht].
    rewrite <- E. apply chunked_blank_r; [exact HX'|].
    rewrite truthy_strip in T. now apply negb_false_iff in T.
Qed.

Lemma text_chunks_chunked (text : str) (n : Z) :
  chunked (text_chunks text n) text.
Proof.
  destruct (text_chunks_collected text n) as (tc & Hc & _ & ->).
  destruct tc; [|exact Hc].
  replace text with ([] ++ text ++ []) at 2 by apply app_nil_r.
  apply (chunked_cons [] text); now constructor.
Qed.

Lemma text_chunks_not_nil (text : str) (n : Z) : text_chunks text n <> [].
Proof.
  destruct (text_chunks_collected text n) as (tc & _ & _ & ->).
  destruct tc; discriminate.
Qed.

Lemma text_chunks_trimmed (text : str) (n : Z) :
  blank text = false -> Forall trimmed (text_chunks text n).
Proof.
  intros Hb. destruct (text_chunks_collected text n) as (tc & Hc & Ht & ->).
  destruct tc; [|exact Ht].
  apply chunked_nil_inv in Hc. congruence.
Qed.

Lemma text_chunks_blank (text : str) (n : Z) :
  blank text = true -> text_chunks text n = [text].
Proof.
  intros Hb. destruct (text_chunks_collected text n) as (tc & Hc & Ht & ->).
  destruct tc as [|c tc]; [reflexivity|].
  exfalso. inversion Hc as [|w c' cs rest Hw _ E1 E2]; subst.
  apply Forall_inv in Ht as [Hn _].
  rewrite !blank_app in Hb.
  apply andb_prop in Hb as [_ Hb]. apply andb_prop in Hb as [Hb _].
  congruence.
Qed.

(** ** The loop, sentence by sentence *)

Lemma recombine_cons (n : Z) (part : str) (parts acc : list str) (cur : str) :
  recombine n (part :: parts) acc cur =
  if truthy (strip part) && any_terminator part
     || (n <=? len (cur ++ part))%Z
  then
    if truthy (strip (cur ++ part))
    then recombine n parts (acc ++ [strip (cur ++ part)]) []
    else recombine n parts acc (cur ++ part)
  else recombine n parts acc (cur ++ part).
Proof. reflexivity. Qed.

Lemma truthy_strip_sentence (body term : str) :
  separator term -> truthy (strip (body ++ term)) = true.
Proof.
  intros (c & m & -> & Hc). rewrite truthy_strip, blank_app. simpl.
  now rewrite (punct_not_space _ Hc), andb_false_r.
Qed.

(** After a separator the buffer is empty, so each sentence is handled on
    its own. *)
Lemma recombine_sentence (n : Z) (body term : str) (parts acc : list str) :
  has_terminator body = false -> separator term ->
  recombine n (body :: term :: parts) acc [] =
  recombine n parts (acc ++ sentence_chunks n (body, term)) [].
Proof.
  intros Hb Ht.
  pose proof (separator_truthy Ht) as Hs.
  pose proof (truthy_strip_sentence body Ht) as Hbt.
  pose proof (truthy_strip_sentence [] Ht) as Ht'. simpl in Ht'.
  rewrite recombine_cons. cbn [app]. unfold sentence_chunks.
  rewrite any_terminator_has, Hb, andb_false_r. cbn [orb].
  destruct (n <=? len body)%Z; cbn [andb];
    [destruct (truthy (strip body))|];
    rewrite recombine_cons, Hs; cbn [orb app];
    rewrite ?Ht', ?Hbt; try reflexivity.
  now rewrite <- app_assoc.
Qed.

Lemma recombine_last (n : Z) (last : str) (acc : list str) :
  has_terminator last = false ->
  (let '(tc, cur) := recombine n [last] acc [] in
   if truthy (strip cur) then tc ++ [strip cur] else tc)
  = acc ++ last_chunk last.
Proof.
  intros Hl. rewrite recombine_cons. cbn [app recombine]. unfold last_chunk.
  rewrite any_terminator_has, Hl, andb_false_r. cbn [orb].
  destruct (n <=? len last)%Z; [destruct (truthy (strip last)) eqn:T|].
  - reflexivity.
  - rewrite T. symmetry. apply app_nil_r.
  - destruct (truthy (strip last)); [reflexivity|].
    symmetry. apply app_nil_r.
Qed.

Lemma recombine_parts (n : Z) (parts : list str) :
  sentence_parts parts ->
  forall acc,
    (let '(tc, cur) := recombine n parts acc [] in
     if truthy (strip cur) then tc ++ [strip cur] else tc)
    = acc ++ concat (map (sentence_chunks n) (fst (pair_up parts)))
          ++ last_chunk (snd (pair_up parts)).
Proof.
  induction 1 as [last Hl | body term parts Hb Ht _ IH]; intros acc.
  - now apply recombine_last.
  - rewrite recombine_sentence by assumption. rewrite IH.
    cbn [pair_up]. destruct (pair_up parts) as [sentences last].
    cbn [fst snd map concat]. now rewrite <- !app_assoc.
Qed.

(** The splitter in terms of the sentences of the text. *)
Lemma text_chunks_sentences (text : str) (n : Z) :
  text_chunks text n =
  match concat (map (sentence_chunks n) (fst (pair_up (re_split text))))
        ++ last_chunk (snd (pair_up (re_split text))) with
  | [] => [text]
  | c :: cs => c :: cs
  end.
Proof.
  unfold text_chunks.
  pose proof (recombine_parts n (re_split_parts text) []) as H.
  destruct (recombine n (re_split text) [] []) as [tc cur].
  cbn [app] in H. rewrite H.
  now destruct (concat _ ++ _).
Qed.

Lemma pair_up_concat (parts : list str) :
  sentence_parts parts ->
  concat parts =
  concat (map (fun s => fst s ++ snd s) (fst (pair_up parts)))
  ++ snd (pair_up parts).
Proof.
  induction 1 as [last Hl | body term parts Hb Ht _ IH].
  - simpl. apply app_nil_r.
  - cbn [pair_up concat]. rewrite IH.
    destruct (pair_up parts) as [sentences last].
    cbn [fst snd map concat]. now rewrite <- !app_assoc.
Qed.

Lemma sentence_chunks_not_nil (n : Z) (s : str * str) :
  sentence_chunks n s <> [].
Proof.
  destruct s as [body term]. unfold sentence_chunks.
  destruct ((n <=? len body)%Z && truthy (strip body)); discriminate.
Qed.

(** A text with a terminator has a first sentence. *)
Lemma pair_up_terminator (text : str) :
  has_terminator text = true ->
  exists s sentences, fst (pair_up (re_split text)) = s :: sentences.
Proof.
  intros H. rewrite re_split_eq.
  destruct (search text) as [[[pre m] rest]|] eqn:E.
  - cbn [pair_up]. destruct (pair_up (re_split rest)) as [sentences last].
    now exists (pre, m), sentences.
  - apply search_none_inv in E. congruence.
Qed.

(** ** One sentence longer than the chunk size *)

Lemma search_skip (body rest : str) :
  has_terminator body = false ->
  search (body ++ rest) =
  match search rest with
  | Some (pre, m, r) => Some (body ++ pre, m, r)
  | None => None
  end.
Proof.
  induction body as [|c body IH]; intros H.
  - simpl. now destruct (search rest) as [[[pre m] r]|].
  - simpl in H. apply orb_false_elim in H as [Hc Hb].
    cbn [app search]. unfold match_at at 1. cbn [take_while]. rewrite Hc.
    rewrite (IH Hb). now destruct (search rest) as [[[pre m] r]|].
Qed.

Lemma match_at_run (p ws : str) :
  p <> [] -> forallb is_punct p = true -> blank ws = true ->
  match_at (p ++ ws) = Some (p ++ ws, []).
Proof.
  intros Hp Hall Hws. unfold match_at.
  assert (Hsn : forallb is_space_or_newline ws = true).
  { clear -Hws. induction ws as [|c ws IH]; [reflexivity|].
    simpl in Hws |- *. apply andb_prop in Hws as [Hc Hws].
    now rewrite space_or_newline, Hc, IH. }
  rewrite take_while_app, drop_while_app by exact Hall.
  rewrite (take_while_none _ _ (blank_no_terminator _ Hws)), app_nil_r.
  assert (Hd : drop_while is_punct ws = ws).
  { destruct ws as [|c ws]; [reflexivity|]. simpl in Hws |- *.
    apply andb_prop in Hws as [Hc _].
    destruct (is_punct c) eqn:E; [|reflexivity].
    apply punct_not_space in E. congruence. }
  rewrite Hd, (take_while_id _ _ Hsn), (drop_while_all _ _ Hsn).
  destruct p; [congruence | reflexivity].
Qed.

Lemma re_split_one_sentence (body p ws : str) :
  has_terminator body = false ->
  p <> [] -> forallb is_punct p = true -> blank ws = true ->
  re_split (body ++ p ++ ws) = [body; p ++ ws; []].
Proof.
  intros Hb Hp Hall Hws.
  rewrite re_split_eq, (@search_skip body (p ++ ws) Hb).
  assert (E : search (p ++ ws) = Some ([], p ++ ws, [])).
  { pose proof (@match_at_run p ws Hp Hall Hws) as M.
    destruct p as [|c p]; [congruence|].
    cbn [app search] in M |- *. now rewrite M. }
  rewrite E, app_nil_r. reflexivity.
Qed.

Lemma rstrip_blank_r (a w : str) : blank w = true -> rstrip (a ++ w) = rstrip a.
Proof.
  intros H. unfold rstrip. rewrite rev_app_distr, drop_while_app.
  - reflexivity.
  - fold (blank (rev w)). now rewrite blank_rev.
Qed.

Lemma rstrip_punct (p : str) : forallb is_punct p = true -> rstrip p = p.
Proof.
  induction p as [|c p IH]; [reflexivity|].
  simpl. intros H; apply andb_prop in H as [Hc Hp].
  now rewrite rstrip_cons, IH by auto using punct_not_space.
Qed.

Lemma strip_punct_run (p ws : str) :
  forallb is_punct p = true -> blank ws = true -> strip (p ++ ws) = p.
Proof.
  intros Hall Hws. destruct p as [|c p].
  - now apply strip_blank.
  - pose proof (rstrip_punct _ Hall) as R.
    simpl in Hall. apply andb_prop in Hall as [Hc _].
    apply punct_not_space in Hc.
    unfold strip, lstrip. cbn [app drop_while]. rewrite Hc.
    now rewrite app_comm_cons, rstrip_blank_r.
Qed.

(** * The claims on the chunk splitter *)

(** C1. On [split("Hello. How are you? I am fine.", 10)] the code does not
    return the three sentences: "How are you" has 11 characters, so the size
    test fires on the sentence text before its terminator is appended; the
    text is finalized without the terminator and "?" becomes a chunk of its
    own.  The result has four chunks. *)
Theorem split_hello_scenario :
  split (py "Hello. How are you? I am fine.") 10
  = [py "Hello."; py "How are you"; py "?"; py "I am fine."]
  /\ split (py "Hello. How are you? I am fine.") 10
     <> [py "Hello."; py "How are you?"; py "I am fine."].
Proof. split; [vm_compute; reflexivity | vm_compute; discriminate]. Qed.

(** C2. For every non-empty text and positive target size, [split] returns
    a non-empty sequence, and the text is exactly its chunks, in order, with
    whitespace-only gaps around them: no character is dropped or duplicated,
    and with all whitespace removed the concatenated chunks and the text are
    equal. *)
Theorem split_reconstructs_text (text : str) (target_size : Z) :
  text <> [] -> (0 < target_size)%Z ->
  split text target_size <> []
  /\ chunked (split text target_size) text
  /\ squash (concat (split text target_size)) = squash text.
Proof.
  intros _ _. unfold split. split; [apply text_chunks_not_nil|].
  split; [apply text_chunks_chunked|].
  apply chunked_squash, text_chunks_chunked.
Qed.

Lemma split_reconstructs_text_witness :
  py "Hello. How are you? I am fine." <> []
  /\ (0 < 10)%Z
  /\ (split (py "Hello. How are you? I am fine.") 10 <> []
      /\ chunked (split (py "Hello. How are you? I am fine.") 10)
           (py "Hello. How are you? I am fine.")
      /\ squash (concat (split (py "Hello. How are you? I am fine.") 10))
         = squash (py "Hello. How are you? I am fine.")).
Proof.
  split; [discriminate|]. split; [lia|].
  apply split_reconstructs_text; [discriminate | lia].
Defined.

(** C3. For every text with a sentence terminator and every positive target
    size: the text is its sentences (a body without terminator and the
    separator after it) followed by the text after the last separator, and
    the result of [split] is, sentence by sentence, a group of chunks.  A
    sentence whose body is shorter than the target size is one chunk, body
    and terminator together.  A sentence that is cut gives its body and its
    separator as two chunks, and is longer than the target size. *)
Theorem split_keeps_short_sentences (text : str) (target_size : Z) :
  has_terminator text = true -> (0 < target_size)%Z ->
  forall sentences last, pair_up (re_split text) = (sentences, last) ->
  text = concat (map (fun s => fst s ++ snd s) sentences) ++ last
  /\ exists groups : list (list str),
      split text target_size = concat groups ++ last_chunk last
      /\ Forall2
           (fun (s : str * str) (group : list str) =>
              let body := fst s in
              let term := snd s in
              has_terminator body = false
              /\ has_terminator term = true
              /\ ((len body < target_size)%Z ->
                  group = [strip (body ++ term)])
              /\ (group <> [strip (body ++ term)] ->
                  group = [strip body; strip term]
                  /\ (target_size < len (body ++ term))%Z))
           sentences groups.
Proof.
  intros Ht _ sentences last E.
  pose proof (re_split_parts text) as P.
  split.
  - rewrite <- (re_split_concat text) at 1.
    rewrite (pair_up_concat P), E. reflexivity.
  - exists (map (sentence_chunks target_size) sentences). split.
    + unfold split. rewrite text_chunks_sentences, E. cbn [fst snd].
      destruct (pair_up_terminator _ Ht) as (s & ss & Es).
      rewrite E in Es. cbn [fst] in Es. subst sentences.
      cbn [map concat].
      pose proof (sentence_chunks_not_nil target_size s) as N.
      destruct (sentence_chunks target_size s); [congruence | reflexivity].
    + clear Ht. revert sentences last E.
      induction P as [l Hl | body term parts Hb Hs _ IH];
        intros sentences last E.
      * injection E as <- _. constructor.
      * cbn [pair_up] in E. destruct (pair_up parts) as [ss l].
        injection E as <- <-. cbn [map].
        constructor; [|now apply (IH ss l)].
        cbn [fst snd sentence_chunks].
        split; [exact Hb|]. split.
        { destruct Hs as (c & m & -> & Hc). simpl. now rewrite Hc. }
        split.
        { intros Hlt. apply Z.leb_gt in Hlt. now rewrite Hlt. }
        { destruct (target_size <=? len body)%Z eqn:L;
            [destruct (truthy (strip body))|]; cbn [andb];
            try congruence.
          intros _. split; [reflexivity|].
          apply Z.leb_le in L. destruct Hs as (c & m & -> & _).
          unfold len in *. rewrite length_app. simpl. lia. }
Qed.

Lemma split_keeps_short_sentences_witness :
  py "Hello. How are you? I am fine."
  = concat (map (fun s => fst s ++ snd s)
              [(py "Hello", py ". "); (py "How are you", py "? ");
               (py "I am fine", py ".")]) ++ py ""
  /\ exists groups : list (list str),
    split (py "Hello. How are you? I am fine.") 10
    = concat groups ++ last_chunk (py "")
    /\ Forall2
         (fun (s : str * str) (group : list str) =>
            let body := fst s in
            let term := snd s in
            has_terminator body = false
            /\ has_terminator term = true
            /\ ((len body < 10)%Z -> group = [strip (body ++ term)])
            /\ (group <> [strip (body ++ term)] ->
                group = [strip body; strip term]
                /\ (10 < len (body ++ term))%Z))
         [(py "Hello", py ". "); (py "How are you", py "? ");
          (py "I am fine", py ".")]
         groups.
Proof.
  apply (@split_keeps_short_sentences
           (py "Hello. How are you? I am fine.") 10);
    [reflexivity | lia | reflexivity].
Defined.

(** C5, as the code has it.  For every text with a character that is not
    whitespace and every positive target size, the result of [split] has at
    least one element, each element is non-empty, not whitespace-only and
    has no whitespace at either end, and the elements occur in the text in
    their order, separated by whitespace only.  (A whitespace-only text is
    returned whole by the fallback.) *)
Theorem split_chunks_trimmed_in_order (text : str) (target_size : Z) :
  blank text = false -> (0 < target_size)%Z ->
  split text target_size <> []
  /\ Forall (fun c => c <> [] /\ blank c = false /\ strip c = c)
       (split text target_size)
  /\ chunked (split text target_size) text.
Proof.
  intros Hb _. unfold split. split; [apply text_chunks_not_nil|].
  split; [|apply text_chunks_chunked].
  eapply Forall_impl; [|exact (@text_chunks_trimmed text target_size Hb)].
  intros c [Hc Hs]. repeat split; try assumption.
  intros ->. discriminate.
Qed.

Lemma split_chunks_trimmed_in_order_witness :
  blank (py "Hello. How are you? I am fine.") = false
  /\ (0 < 10)%Z
  /\ (split (py "Hello. How are you? I am fine.") 10 <> []
      /\ Forall (fun c => c <> [] /\ blank c = false /\ strip c = c)
           (split (py "Hello. How are you? I am fine.") 10)
      /\ chunked (split (py "Hello. How are you? I am fine.") 10)
           (py "Hello. How are you? I am fine.")).
Proof.
  split; [reflexivity|]. split; [lia|].
  apply split_chunks_trimmed_in_order; [reflexivity | lia].
Defined.

(** C5 as stated fails on the one-space text: it is not empty, and the
    fallback returns it whole, a whitespace-only chunk. *)
Lemma split_whitespace_only_chunk :
  ~ (py " " <> [] -> (0 < 10)%Z ->
     split (py " ") 10 <> []
     /\ Forall (fun c => c <> [] /\ blank c = false) (split (py " ") 10)
     /\ chunked (split (py " ") 10) (py " ")).
Proof.
  intros H. destruct H as (_ & F & _); [discriminate | lia |].
  change (split (py " ") 10) with [py " "] in F.
  apply Forall_inv in F as [_ F]. discriminate.
Qed.

(** C6, as the code has it.  For every text without sentence terminator and
    every target size at least the length of the text, [split] returns
    exactly one chunk: the whitespace-trimmed text when the text has a
    character that is not whitespace, and the text itself, untrimmed, when
    it is whitespace-only. *)
Theorem split_without_terminator (text : str) (target_size : Z) :
  has_terminator text = false -> (len text <= target_size)%Z ->
  split text target_size = [if blank text then text else strip text].
Proof.
  intros Ht _. unfold split.
  rewrite text_chunks_sentences, re_split_eq, (@search_none text Ht).
  cbn [pair_up fst snd map concat app]. unfold last_chunk.
  rewrite truthy_strip. now destruct (blank text).
Qed.

Lemma split_without_terminator_witness :
  has_terminator (py "  How are you ") = false
  /\ (len (py "  How are you ") <= 20)%Z
  /\ split (py "  How are you ") 20 = [py "How are you"].
Proof.
  split; [reflexivity|]. split; [vm_compute; discriminate|].
  apply (@split_without_terminator (py "  How are you ") 20);
    [reflexivity | vm_compute; discriminate].
Defined.

(** C6 as stated fails on the one-space text with target size 1: the chunk
    is the text itself, not the trimmed (empty) text. *)
Lemma split_whitespace_not_trimmed :
  ~ (has_terminator (py " ") = false -> (len (py " ") <= 1)%Z ->
     split (py " ") 1 = [strip (py " ")]).
Proof.
  intros H. assert (E : split (py " ") 1 = [strip (py " ")]).
  { apply H; [reflexivity | vm_compute; discriminate]. }
  vm_compute in E. discriminate.
Qed.

(** C7. For the empty text and any positive target size, [split] returns
    the one-element sequence holding the empty string. *)
Theorem split_empty_text (target_size : Z) :
  (0 < target_size)%Z -> split (py "") target_size = [py ""].
Proof.
  intros _. unfold split. now apply text_chunks_blank.
Qed.

Lemma split_empty_text_witness :
  (0 < 10)%Z /\ split (py "") 10 = [py ""].
Proof.
  split; [lia|]. apply split_empty_text. lia.
Defined.

(** C10. A sentence whose body, before the terminator, has at least
    [target_size] characters is cut by the size test: the body is finalized
    without its terminator, and the run of terminators that follows is a
    chunk of its own, made of sentence-terminal punctuation only. *)
Theorem split_strands_terminator (body p ws : str) (target_size : Z) :
  has_terminator body = false -> blank body = false ->
  p <> [] -> forallb is_punct p = true -> blank ws = true ->
  (target_size <= len body)%Z ->
  split (body ++ p ++ ws) target_size = [strip body; p].
Proof.
  intros Hb Hn Hp Hall Hws Hlen. unfold split.
  rewrite text_chunks_sentences, re_split_one_sentence by assumption.
  cbn [pair_up fst snd map concat app sentence_chunks].
  apply Z.leb_le in Hlen. rewrite Hlen, truthy_strip, Hn.
  cbn [andb negb app]. now rewrite strip_punct_run.
Qed.

Lemma split_strands_terminator_witness :
  has_terminator (py "How are you") = false
  /\ blank (py "How are you") = false
  /\ py "?" <> []
  /\ forallb is_punct (py "?") = true
  /\ blank (py " ") = true
  /\ (10 <= len (py "How are you"))%Z
  /\ split (py "How are you? ") 10 = [py "How are you"; py "?"].
Proof.
  repeat (split; [first [reflexivity | discriminate
                        | vm_compute; discriminate]|]).
  apply (@split_strands_terminator (py "How are you") (py "?") (py " ") 10);
    first [reflexivity | discriminate | vm_compute; discriminate].
Defined.

(** * The sequential driver *)

Section DriverFacts.
Variable World : Type.
Variable Exn : Type.
Variable synth : World -> str -> outcome Exn * World.

Lemma drive_calls (total : nat) (chunks : list str) :
  forall (i : nat) (first : bool) (w : World),
    calls (fst (drive synth total i chunks first w)) = attempted chunks.
Proof.
  induction chunks as [|c chunks IH]; intros i first w; [reflexivity|].
  cbn [drive attempted filter]. destruct (truthy (strip c)); cbn [negb].
  - destruct (synth w c) as [[a|e] w'].
    + specialize (IH (S i) false w').
      destruct (drive synth total (S i) chunks false w') as [evs w''].
      cbn [fst calls] in *. now rewrite IH.
    + specialize (IH (S i) first w').
      destruct (drive synth total (S i) chunks first w') as [evs w''].
      cbn [fst calls] in *. now rewrite IH.
  - apply IH.
Qed.

Lemma drive_yields (total : nat) (chunks : list str) :
  forall (i : nat) (first : bool) (w : World),
    yields (fst (drive synth total i chunks first w))
    = audio_of (outcomes synth (attempted chunks) w).
Proof.
  induction chunks as [|c chunks IH]; intros i first w; [reflexivity|].
  cbn [drive attempted filter]. destruct (truthy (strip c)); cbn [negb].
  - cbn [outcomes]. destruct (synth w c) as [[a|e] w'].
    + specialize (IH (S i) false w').
      destruct (drive synth total (S i) chunks false w') as [evs w''].
      cbn [fst yields] in *. unfold audio_of in *. cbn [flat_map app].
      now rewrite IH.
    + specialize (IH (S i) first w').
      destruct (drive synth total (S i) chunks first w') as [evs w''].
      cbn [fst yields] in *. unfold audio_of in *. cbn [flat_map app].
      now rewrite IH.
  - apply IH.
Qed.

Lemma drive_errors (total : nat) (chunks : list str) :
  forall (i : nat) (first : bool) (w : World),
    length (errors (fst (drive synth total i chunks first w)))
    = length (failures_of (outcomes synth (attempted chunks) w)).
Proof.
  induction chunks as [|c chunks IH]; intros i first w; [reflexivity|].
  cbn [drive attempted filter]. destruct (truthy (strip c)); cbn [negb].
  - cbn [outcomes]. destruct (synth w c) as [[a|e] w'].
    + specialize (IH (S i) false w').
      destruct (drive synth total (S i) chunks false w') as [evs w''].
      destruct first; cbn [fst errors] in *; unfold failures_of in *;
        cbn [flat_map app]; now rewrite IH.
    + specialize (IH (S i) first w').
      destruct (drive synth total (S i) chunks first w') as [evs w''].
      cbn [fst errors] in *. unfold failures_of in *.
      cbn [flat_map app length]. now rewrite IH.
  - apply IH.
Qed.

(** One step of the driver at a chunk whose synthesis fails: one error
    record, no audio, and the rest of the chunks is driven from the state
    the failed call left, the [first_chunk] flag unchanged. *)
Lemma drive_raised (total i : nat) (c : str) (chunks : list str)
    (first : bool) (w w' : World) (e : Exn) :
  blank c = false -> synth w c = (Raised e, w') ->
  fst (drive synth total i (c :: chunks) first w)
  = Call c :: Log (Error_generating (i + 1) total e)
      :: fst (drive synth total (S i) chunks first w').
Proof.
  intros Hc Hs. cbn [drive]. rewrite truthy_strip, Hc, Hs. cbn [negb].
  now destruct (drive synth total (S i) chunks first w').
Qed.

Lemma drive_returned (total i : nat) (c : str) (chunks : list str)
    (first : bool) (w w' : World) (a : bytes) :
  blank c = false -> synth w c = (Returned a, w') ->
  fst (drive synth total i (c :: chunks) first w)
  = Call c
      :: Log (if first then Info_first_chunk (length a)
              else Debug_generated (i + 1) total (length a))
      :: Yield a :: fst (drive synth total (S i) chunks false w').
Proof.
  intros Hc Hs. cbn [drive]. rewrite truthy_strip, Hc, Hs. cbn [negb].
  now destruct (drive synth total (S i) chunks false w').
Qed.

Lemma streaming_events (text : str) (n : Z) (w : World) :
  fst (synthesize_with_xtts_streaming synth text n w)
  = Log (Info_split (length (text_chunks text n)))
      :: fst (drive synth (length (text_chunks text n)) 0
                (text_chunks text n) true w).
Proof.
  unfold synthesize_with_xtts_streaming.
  now destruct (drive synth _ 0 (text_chunks text n) true w).
Qed.

Lemma attempted_trimmed (chunks : list str) :
  Forall trimmed chunks -> attempted chunks = chunks.
Proof.
  induction 1 as [|c chunks [Hc _] _ IH]; [reflexivity|].
  cbn [attempted filter]. rewrite truthy_strip, Hc. cbn [negb].
  now f_equal.
Qed.
End DriverFacts.

Section OutcomeFacts.
Variable World : Type.
Variable Exn : Type.
Variable synth : World -> str -> outcome Exn * World.

Lemma outcomes_length (cs : list str) :
  forall w : World, length (outcomes synth cs w) = length cs.
Proof.
  induction cs as [|c cs IH]; intros w; [reflexivity|].
  cbn [outcomes]. destruct (synth w c) as [o w']. simpl. now rewrite IH.
Qed.

Lemma no_audio_all_failed (os : list (outcome Exn)) :
  audio_of os = [] -> length (failures_of os) = length os.
Proof.
  induction os as [|[a|e] os IH]; simpl; [reflexivity | discriminate|].
  intros H. now rewrite IH.
Qed.
End OutcomeFacts.

(** * The claims on the driver *)

(** C4. For every chunk sequence: a chunk whose synthesis fails gives one
    error record and no audio, and the driver goes on with the remaining
    chunks; over the whole sequence the primitive is called on every chunk
    that is not whitespace-only, in order, the audio yielded is that of the
    calls that returned, in order, and there is one error record per call
    that raised.  With three chunks of which exactly the second fails, the
    driver yields the audio of the first and of the third, in that order,
    and logs exactly one failure. *)
Theorem driver_skips_failed_chunks (World Exn : Type)
    (synth : World -> str -> outcome Exn * World) :
  (forall total i c rest first w w' e,
      blank c = false -> synth w c = (Raised e, w') ->
      fst (drive synth total i (c :: rest) first w)
      = Call c :: Log (Error_generating (i + 1) total e)
          :: fst (drive synth total (S i) rest first w'))
  /\ (forall chunks w,
         let evs := fst (drive synth (length chunks) 0 chunks true w) in
         calls evs = attempted chunks
         /\ yields evs = audio_of (outcomes synth (attempted chunks) w)
         /\ length (errors evs)
            = length (failures_of (outcomes synth (attempted chunks) w)))
  /\ (forall c1 c2 c3 w a1 e a3,
         blank c1 = false -> blank c2 = false -> blank c3 = false ->
         outcomes synth [c1; c2; c3] w
         = [Returned a1; Raised e; Returned a3] ->
         let evs := fst (drive synth 3 0 [c1; c2; c3] true w) in
         yields evs = [a1; a3] /\ errors evs = [Error_generating 2 3 e]).
Proof.
  split; [|split].
  - intros. now apply drive_raised.
  - intros chunks w evs. subst evs.
    split; [apply drive_calls|]. split; [apply drive_yields|].
    apply drive_errors.
  - intros c1 c2 c3 w a1 e a3 H1 H2 H3 H evs. subst evs.
    cbn [outcomes] in H.
    destruct (synth w c1) as [o1 w1] eqn:E1.
    destruct (synth w1 c2) as [o2 w2] eqn:E2.
    destruct (synth w2 c3) as [o3 w3] eqn:E3.
    injection H as -> -> ->.
    rewrite (@drive_returned _ _ synth 3 0 c1 [c2; c3] true w w1 a1 H1 E1).
    rewrite (@drive_raised _ _ synth 3 1 c2 [c3] false w1 w2 e H2 E2).
    rewrite (@drive_returned _ _ synth 3 2 c3 [] false w2 w3 a3 H3 E3).
    split; reflexivity.
Qed.

Lemma driver_skips_failed_chunks_witness :
  blank (py "One.") = false /\ blank (py "Two.") = false
  /\ blank (py "Three.") = false
  /\ second_call_raises 1 (py "Two.") = (Raised tt, 2)
  /\ fst (drive second_call_raises 3 1 [py "Two."; py "Three."] false 1)
     = Call (py "Two.") :: Log (Error_generating 2 3 tt)
         :: fst (drive second_call_raises 3 2 [py "Three."] false 2)
  /\ yields (fst (drive second_call_raises 3 0
                    [py "One."; py "Two."; py "Three."] true 0))
     = [[Byte.x4f; Byte.x6e; Byte.x65; Byte.x2e];
        [Byte.x54; Byte.x68; Byte.x72; Byte.x65; Byte.x65; Byte.x2e]]
  /\ errors (fst (drive second_call_raises 3 0
                    [py "One."; py "Two."; py "Three."] true 0))
     = [Error_generating 2 3 tt].
Proof.
  destruct (@driver_skips_failed_chunks nat unit second_call_raises)
    as (Hstep & _ & Hthree).
  do 4 (split; [reflexivity|]).
  split; [apply (Hstep 3 1 (py "Two.") [py "Three."] false 1 2 tt);
          reflexivity|].
  apply (Hthree (py "One.") (py "Two.") (py "Three.") 0);
    reflexivity.
Defined.

Section AllChunksFail.
Variable World : Type.
Variable Exn : Type.
Variable synth : World -> str -> outcome Exn * World.

(** When every call raises, the error records are those of the chunks, in
    order: the record of the chunk at position [k] carries the index [k],
    counted from 1, the total and the exception of its call. *)
Lemma drive_all_failed (total : nat) (chunks : list str) :
  forall (i : nat) (first : bool) (w : World),
    Forall trimmed chunks ->
    audio_of (outcomes synth chunks w) = [] ->
    errors (fst (drive synth total i chunks first w))
    = map (fun p => Error_generating (fst p) total (snd p))
        (combine (seq (i + 1) (length chunks))
           (failures_of (outcomes synth chunks w))).
Proof.
  induction chunks as [|c chunks IH]; intros i first w Ht Ha;
    [reflexivity|].
  inversion Ht as [|c' cs' [Hc _] Ht']; subst.
  cbn [drive outcomes] in *. rewrite truthy_strip, Hc. cbn [negb].
  destruct (synth w c) as [[a|e] w']; [discriminate|].
  unfold audio_of, failures_of in *. cbn [flat_map app] in *.
  specialize (IH (S i) first w' Ht' Ha).
  destruct (drive synth total (S i) chunks first w') as [evs w''].
  cbn [fst errors length seq combine map] in *.
  rewrite IH. replace (S (i + 1)) with (S i + 1) by lia. reflexivity.
Qed.

End AllChunksFail.

(** C8, as the code has it.  When the caller of a request on a text that
    is not whitespace-only receives no audio, every chunk failed; the caller
    of a request on the empty text receives no audio either.  What the
    caller receives is the same in both cases.  The runs differ in the log
    only: the failed one has an error record for each chunk (the primitive
    was called on every chunk of the text, and the records are, in order,
    those of the chunks 1 to [total] with the exceptions their calls
    raised), the one on the empty text has none, and does not call the
    primitive. *)
Theorem failed_synthesis_seen_in_log_only (World Exn : Type)
    (synth synth0 : World -> str -> outcome Exn * World)
    (text : str) (w w0 : World) :
  blank text = false ->
  yields (fst (generate_audio_chunks synth text w)) = [] ->
  yields (fst (generate_audio_chunks synth text w))
  = yields (fst (generate_audio_chunks synth0 (py "") w0))
  /\ errors (fst (generate_audio_chunks synth text w)) <> []
  /\ errors (fst (generate_audio_chunks synth0 (py "") w0)) = []
  /\ calls (fst (generate_audio_chunks synth0 (py "") w0)) = []
  /\ calls (fst (generate_audio_chunks synth text w)) = split text 150
  /\ length (errors (fst (generate_audio_chunks synth text w)))
     = length (split text 150)
  /\ length (failures_of (outcomes synth (split text 150) w))
     = length (split text 150)
  /\ errors (fst (generate_audio_chunks synth text w))
     = map (fun p => Error_generating (fst p) (length (split text 150))
                       (snd p))
         (combine (seq 1 (length (split text 150)))
            (failures_of (outcomes synth (split text 150) w))).
Proof.
  intros Hb Hy.
  pose proof (@text_chunks_trimmed text 150 Hb) as T.
  pose proof (text_chunks_not_nil text 150) as N.
  unfold split, generate_audio_chunks in *. rewrite streaming_events in *.
  cbn [yields errors calls] in *.
  rewrite drive_yields, (attempted_trimmed T) in Hy.
  pose proof (@drive_all_failed World Exn synth
                (length (text_chunks text 150)) (text_chunks text 150) 0
                true w T Hy) as E.
  cbn [Nat.add] in E.
  assert (F : length (failures_of (outcomes synth (text_chunks text 150) w))
              = length (text_chunks text 150)).
  { rewrite (no_audio_all_failed _ Hy). apply outcomes_length. }
  assert (L : length (errors (fst (drive synth
                                     (length (text_chunks text 150)) 0
                                     (text_chunks text 150) true w)))
              = length (text_chunks text 150)).
  { rewrite E, length_map, length_combine, length_seq, F. apply Nat.min_id. }
  split; [rewrite drive_yields, (attempted_trimmed T), Hy; reflexivity|].
  split.
  { intros He. rewrite He in L. destruct (text_chunks text 150);
      [congruence | discriminate]. }
  split; [reflexivity|]. split; [reflexivity|].
  split; [rewrite drive_calls; apply (attempted_trimmed T)|].
  split; [exact L|]. split; [exact F | exact E].
Qed.

Lemma failed_synthesis_seen_in_log_only_witness :
  blank (py "Hello. Bye.") = false
  /\ yields (fst (generate_audio_chunks always_raises (py "Hello. Bye.") tt))
     = []
  /\ (yields (fst (generate_audio_chunks always_raises (py "Hello. Bye.") tt))
      = yields (fst (generate_audio_chunks always_returns (py "") tt))
      /\ errors (fst (generate_audio_chunks always_raises (py "Hello. Bye.")
                        tt))
         <> []
      /\ errors (fst (generate_audio_chunks always_returns (py "") tt)) = []
      /\ calls (fst (generate_audio_chunks always_returns (py "") tt)) = []
      /\ calls (fst (generate_audio_chunks always_raises (py "Hello. Bye.")
                       tt))
         = split (py "Hello. Bye.") 150
      /\ length (errors (fst (generate_audio_chunks always_raises
                                (py "Hello. Bye.") tt)))
         = length (split (py "Hello. Bye.") 150)
      /\ length (failures_of (outcomes always_raises
                                (split (py "Hello. Bye.") 150) tt))
         = length (split (py "Hello. Bye.") 150)
      /\ errors (fst (generate_audio_chunks always_raises (py "Hello. Bye.")
                        tt))
         = map (fun p => Error_generating (fst p)
                           (length (split (py "Hello. Bye.") 150)) (snd p))
             (combine (seq 1 (length (split (py "Hello. Bye.") 150)))
                (failures_of (outcomes always_raises
                                (split (py "Hello. Bye.") 150) tt)))).
Proof.
  split; [reflexivity|]. split; [reflexivity|].
  apply failed_synthesis_seen_in_log_only; reflexivity.
Defined.

(** C8 as stated fails: a request on "Hello." whose only chunk fails and a
    successful request on the empty text hand the caller the same, empty,
    sequence of audio chunks. *)
Lemma empty_results_indistinguishable :
  ~ (yields (fst (generate_audio_chunks always_raises (py "Hello.") tt))
     <> yields (fst (generate_audio_chunks always_returns (py "") tt))).
Proof. intros H. apply H. reflexivity. Qed.

(** C9. [split] is a function of its two inputs: equal inputs give equal
    outputs.  Inside the streaming function, which does run against the
    mutable state of the inference layer, the chunks handed to the
    primitive are those of [split], whatever that state is and whatever the
    primitive does. *)
Theorem split_deterministic (World Exn : Type)
    (synth1 synth2 : World -> str -> outcome Exn * World) (w1 w2 : World)
    (text1 text2 : str) (n1 n2 : Z) :
  text1 = text2 -> n1 = n2 ->
  split text1 n1 = split text2 n2
  /\ calls (fst (synthesize_with_xtts_streaming synth1 text1 n1 w1))
     = attempted (split text1 n1)
  /\ calls (fst (synthesize_with_xtts_streaming synth1 text1 n1 w1))
     = calls (fst (synthesize_with_xtts_streaming synth2 text2 n2 w2)).
Proof.
  intros -> ->. split; [reflexivity|].
  rewrite !streaming_events. cbn [calls]. rewrite !drive_calls.
  split; reflexivity.
Qed.

Lemma split_deterministic_witness :
  py "Hello. How are you?" = py "Hello. How are you?"
  /\ 150%Z = 150%Z
  /\ (split (py "Hello. How are you?") 150
      = split (py "Hello. How are you?") 150
      /\ calls (fst (synthesize_with_xtts_streaming second_call_raises
                       (py "Hello. How are you?") 150 0))
         = attempted (split (py "Hello. How are you?") 150)
      /\ calls (fst (synthesize_with_xtts_streaming second_call_raises
                       (py "Hello. How are you?") 150 0))
         = calls (fst (synthesize_with_xtts_streaming second_call_raises
                         (py "Hello. How are you?") 150 7))).
Proof.
  split; [reflexivity|]. split; [reflexivity|].
  apply split_deterministic; reflexivity.
Defined.

(** * Further properties of the splitter *)

Lemma match_at_separator_run (l m rest : str) :
  match_at l = Some (m, rest) -> separator_run m.
Proof.
  unfold match_at.
  destruct (take_while is_punct l) as [|c ps] eqn:E; [discriminate|].
  intros H; injection H as <- _.
  exists (c :: ps), (take_while is_space_or_newline (drop_while is_punct l)).
  split; [reflexivity|]. split; [discriminate|]. split.
  - rewrite <- E. apply take_while_all.
  - pose proof (take_while_all is_space_or_newline (drop_while is_punct l))
      as H.
    revert H. generalize (take_while is_space_or_newline
                            (drop_while is_punct l)).
    intros ws. induction ws as [|x ws IH]; [reflexivity|].
    simpl. rewrite space_or_newline. intros H.
    apply andb_prop in H as [-> H]. now apply IH.
Qed.

Lemma search_separator_run (l pre m rest : str) :
  search l = Some (pre, m, rest) -> separator_run m.
Proof.
  revert pre. induction l as [|c l IH]; intros pre; simpl.
  - discriminate.
  - destruct (match_at (c :: l)) as [[m0 r0]|] eqn:E.
    + intros H; injection H as _ <- _.
      now apply match_at_separator_run in E.
    + destruct (search l) as [[[pre' m'] rest']|]; [|discriminate].
      intros H; injection H as _ <- <-. now apply (IH pre').
Qed.

Lemma sentences_shape (text : str) :
  Forall (fun s => has_terminator (fst s) = false /\ separator_run (snd s))
    (fst (pair_up (re_split text))).
Proof.
  induction text as [text E | text pre m rest E IH] using re_split_ind;
    rewrite re_split_eq, E.
  - constructor.
  - cbn [pair_up]. destruct (pair_up (re_split rest)) as [sentences last].
    cbn [fst] in *. constructor; [|exact IH]. cbn [fst snd]. split.
    + apply search_some in E. tauto.
    + now apply search_separator_run in E.
Qed.

Lemma last_no_terminator (text : str) :
  has_terminator (snd (pair_up (re_split text))) = false.
Proof.
  induction text as [text E | text pre m rest E IH] using re_split_ind;
    rewrite re_split_eq, E.
  - now apply search_none_inv.
  - cbn [pair_up]. now destruct (pair_up (re_split rest)).
Qed.

Lemma rstrip_snoc (s : str) (c : char) :
  is_space c = false -> rstrip (s ++ [c]) = s ++ [c].
Proof.
  intros Hc. unfold rstrip. rewrite rev_app_distr. simpl. rewrite Hc.
  simpl. now rewrite rev_involutive.
Qed.

(** A sentence kept with its separator: the chunk is the body without its
    leading whitespace, followed by the whole run of terminators. *)
Lemma strip_sentence (body ps ws : str) :
  ps <> [] -> forallb is_punct ps = true -> blank ws = true ->
  strip (body ++ ps ++ ws) = lstrip (body ++ ps).
Proof.
  intros Hp Hall Hws.
  destruct (exists_last Hp) as (ps' & c & ->).
  rewrite forallb_app in Hall. apply andb_prop in Hall as [_ Hc].
  simpl in Hc. rewrite andb_true_r in Hc. apply punct_not_space in Hc.
  unfold strip, lstrip.
  replace (body ++ (ps' ++ [c]) ++ ws) with ((body ++ ps') ++ c :: ws)
    by now rewrite <- !app_assoc.
  replace (body ++ ps' ++ [c]) with ((body ++ ps') ++ [c])
    by now rewrite <- app_assoc.
  rewrite !drop_while_app_stop by exact Hc.
  replace (drop_while is_space (body ++ ps') ++ c :: ws)
    with ((drop_while is_space (body ++ ps') ++ [c]) ++ ws)
    by now rewrite <- app_assoc.
  rewrite rstrip_blank_r by exact Hws. now apply rstrip_snoc.
Qed.

Lemma ends_with_terminator_sentence (body term : str) :
  separator_run term -> ends_with_terminator (strip (body ++ term)) = true.
Proof.
  intros (ps & ws & -> & Hp & Hall & Hws).
  rewrite strip_sentence by assumption.
  destruct (exists_last Hp) as (ps' & c & ->).
  rewrite forallb_app in Hall. apply andb_prop in Hall as [_ Hc].
  simpl in Hc. rewrite andb_true_r in Hc.
  unfold lstrip. rewrite app_assoc.
  rewrite drop_while_app_stop by now apply punct_not_space.
  unfold ends_with_terminator. rewrite rev_app_distr. simpl. exact Hc.
Qed.

(** X1. [re.split] with its capturing group loses nothing: the parts,
    concatenated, are the text.  The parts pair up into sentences, a body
    without terminator and a separator made of a non-empty run of
    terminators and a run of whitespace; the text after the last separator
    has no terminator. *)
Theorem re_split_lossless (text : str) :
  concat (re_split text) = text
  /\ text = concat (map (fun s => fst s ++ snd s)
                      (fst (pair_up (re_split text))))
            ++ snd (pair_up (re_split text))
  /\ Forall (fun s => has_terminator (fst s) = false
                      /\ separator_run (snd s))
       (fst (pair_up (re_split text)))
  /\ has_terminator (snd (pair_up (re_split text))) = false.
Proof.
  split; [apply re_split_concat|]. split.
  - rewrite <- (re_split_concat text) at 1.
    apply pair_up_concat, re_split_parts.
  - split; [apply sentences_shape | apply last_no_terminator].
Qed.

(** X2. [chunk_size] does not bound the length of a chunk: a text without
    sentence terminator that is not whitespace-only is returned as one
    chunk, trimmed, whatever the chunk size, also when the text is longer
    than [chunk_size]. *)
Theorem split_never_cuts_unterminated_text (text : str) (chunk_size : Z) :
  has_terminator text = false -> blank text = false ->
  split text chunk_size = [strip text]
  /\ squash (strip text) = squash text.
Proof.
  intros Ht Hb. unfold split.
  rewrite text_chunks_sentences, re_split_eq, (@search_none text Ht).
  cbn [pair_up fst snd map concat app]. unfold last_chunk.
  rewrite truthy_strip, Hb. cbn [negb]. split; [reflexivity|].
  destruct (strip_decompose text) as (w1 & w2 & H1 & H2 & E).
  rewrite E at 2. rewrite !squash_app, (squash_blank _ H1), (squash_blank _ H2).
  now rewrite app_nil_r.
Qed.

Lemma split_never_cuts_unterminated_text_witness :
  has_terminator (py " no full stop here ") = false
  /\ blank (py " no full stop here ") = false
  /\ (split (py " no full stop here ") 5 = [py "no full stop here"]
      /\ squash (py "no full stop here") = squash (py " no full stop here ")).
Proof.
  split; [reflexivity|]. split; [reflexivity|].
  apply (@split_never_cuts_unterminated_text (py " no full stop here ") 5);
    reflexivity.
Defined.

Lemma sentence_chunks_short (n : Z) (sentences : list (str * str)) :
  Forall (fun s => (len (fst s) < n)%Z) sentences ->
  concat (map (sentence_chunks n) sentences)
  = map (fun s => strip (fst s ++ snd s)) sentences.
Proof.
  induction 1 as [|[body term] ss H _ IH]; [reflexivity|].
  cbn [map concat fst snd sentence_chunks] in *.
  apply Z.leb_gt in H. rewrite H, IH. reflexivity.
Qed.

(** X3. When no sentence body reaches [chunk_size] (so for every text
    shorter than [chunk_size]) and the text is not whitespace-only, the
    chunks are the sentences, one chunk each, followed by the trimmed text
    after the last separator if it is not whitespace-only; every sentence
    chunk ends with a terminator. *)
Theorem split_by_sentences (text : str) (chunk_size : Z) :
  blank text = false ->
  Forall (fun s => (len (fst s) < chunk_size)%Z)
    (fst (pair_up (re_split text))) ->
  split text chunk_size
  = map (fun s => strip (fst s ++ snd s)) (fst (pair_up (re_split text)))
    ++ last_chunk (snd (pair_up (re_split text)))
  /\ Forall (fun s => ends_with_terminator (strip (fst s ++ snd s)) = true)
       (fst (pair_up (re_split text))).
Proof.
  intros Hb Hs. split.
  - unfold split. rewrite text_chunks_sentences.
    rewrite sentence_chunks_short by exact Hs.
    pose proof (pair_up_concat (re_split_parts text)) as E.
    rewrite re_split_concat in E.
    destruct (pair_up (re_split text)) as [sentences last].
    cbn [fst snd] in *.
    destruct sentences as [|s ss]; [|reflexivity].
    cbn [map concat app] in *. subst last. unfold last_chunk.
    rewrite truthy_strip, Hb. reflexivity.
  - eapply Forall_impl; [|apply sentences_shape].
    intros s [_ H]. now apply ends_with_terminator_sentence.
Qed.

Lemma split_by_sentences_witness :
  blank (py "Hello. How are you? I am fine.") = false
  /\ Forall (fun s => (len (fst s) < 150)%Z)
       [(py "Hello", py ". "); (py "How are you", py "? ");
        (py "I am fine", py ".")]
  /\ split (py "Hello. How are you? I am fine.") 150
     = [py "Hello."; py "How are you?"; py "I am fine."]
  /\ Forall (fun s => ends_with_terminator (strip (fst s ++ snd s)) = true)
       [(py "Hello", py ". "); (py "How are you", py "? ");
        (py "I am fine", py ".")].
Proof.
  split; [reflexivity|].
  split; [repeat constructor|].
  apply (@split_by_sentences (py "Hello. How are you? I am fine.") 150);
    [reflexivity | repeat constructor].
Defined.

(** * Further properties of the driver *)

Section DriverMore.
Variable World : Type.
Variable Exn : Type.
Variable synth : World -> str -> outcome Exn * World.

Lemma audio_failures_length (os : list (outcome Exn)) :
  length (audio_of os) + length (failures_of os) = length os.
Proof.
  induction os as [|[a|e] os IH]; simpl; lia.
Qed.

Lemma drive_app (total : nat) (cs1 cs2 : list str) :
  forall (i : nat) (first : bool) (w : World),
    drive synth total i (cs1 ++ cs2) first w =
    let '(evs1, w1) := drive synth total i cs1 first w in
    let '(evs2, w2) :=
      drive synth total (i + length cs1) cs2
        (first && yielded_nothing evs1) w1 in
    (evs1 ++ evs2, w2).
Proof.
  induction cs1 as [|c cs1 IH]; intros i first w.
  - cbn [app drive length]. unfold yielded_nothing. cbn [yields].
    rewrite andb_true_r, Nat.add_0_r.
    now destruct (drive synth total i cs2 first w).
  - cbn [app drive length]. replace (i + S (length cs1)) with (S i + length cs1)
      by lia.
    destruct (negb (truthy (strip c))).
    + apply IH.
    + destruct (synth w c) as [[a|e] w'].
      * rewrite IH.
        destruct (drive synth total (S i) cs1 false w') as [evs1 w1].
        unfold yielded_nothing. cbn [yields app andb]. rewrite andb_false_r.
        now destruct (drive synth total (S i + length cs1) cs2 false w1).
      * rewrite IH.
        destruct (drive synth total (S i) cs1 first w') as [evs1 w1].
        unfold yielded_nothing. cbn [yields app].
        now destruct (drive synth total (S i + length cs1) cs2 _ w1).
Qed.

Lemma drive_first_chunk_logs (total : nat) (chunks : list str) :
  forall (i : nat) (first : bool) (w : World),
    first_chunk_logs (fst (drive synth total i chunks first w))
    = if first
         && negb (yielded_nothing (fst (drive synth total i chunks first w)))
      then 1 else 0.
Proof.
  induction chunks as [|c chunks IH]; intros i first w.
  - cbn. now rewrite andb_false_r.
  - cbn [drive]. destruct (negb (truthy (strip c))); [apply IH|].
    destruct (synth w c) as [[a|e] w'].
    + specialize (IH (S i) false w').
      destruct (drive synth total (S i) chunks false w') as [evs w''].
      cbn [fst] in *. destruct first; cbn; rewrite IH; reflexivity.
    + specialize (IH (S i) first w').
      destruct (drive synth total (S i) chunks first w') as [evs w''].
      cbn [fst] in *. cbn. exact IH.
Qed.
End DriverMore.

(** X4. No attempted chunk is lost without trace: over a whole run of the
    driver, the number of audio chunks yielded plus the number of error
    records is the number of chunks that are not whitespace-only; for a
    streaming request on a text that is not whitespace-only, it is the
    number of chunks of the text. *)
Theorem driver_audio_or_error (World Exn : Type)
    (synth : World -> str -> outcome Exn * World) :
  (forall total i chunks first w,
      length (yields (fst (drive synth total i chunks first w)))
      + length (errors (fst (drive synth total i chunks first w)))
      = length (attempted chunks))
  /\ (forall text chunk_size w,
         blank text = false ->
         length (yields (fst (synthesize_with_xtts_streaming synth text
                                chunk_size w)))
         + length (errors (fst (synthesize_with_xtts_streaming synth text
                                  chunk_size w)))
         = length (split text chunk_size)).
Proof.
  assert (H : forall total i chunks first w,
             length (yields (fst (drive synth total i chunks first w)))
             + length (errors (fst (drive synth total i chunks first w)))
             = length (attempted chunks)).
  { intros. rewrite drive_yields, drive_errors, audio_failures_length.
    apply outcomes_length. }
  split; [exact H|].
  intros text n w Hb. rewrite streaming_events. cbn [yields errors].
  rewrite H. unfold split.
  now rewrite (attempted_trimmed (@text_chunks_trimmed text n Hb)).
Qed.

Lemma driver_audio_or_error_witness :
  blank (py "One. Two. Three.") = false
  /\ length (yields (fst (synthesize_with_xtts_streaming second_call_raises
                            (py "One. Two. Three.") 150 0)))
     + length (errors (fst (synthesize_with_xtts_streaming second_call_raises
                              (py "One. Two. Three.") 150 0)))
     = length (split (py "One. Two. Three.") 150).
Proof.
  split; [reflexivity|].
  destruct (@driver_audio_or_error nat unit second_call_raises) as [_ H].
  apply H. reflexivity.
Defined.

(** X5. The driver composes over concatenation: driving [cs1 ++ cs2] is
    driving [cs1], then driving [cs2] from the index after [cs1], in the
    state of the inference layer the first part left; the second part still
    owes the "first chunk" record exactly when the first part yielded no
    audio. *)
Theorem driver_composes (World Exn : Type)
    (synth : World -> str -> outcome Exn * World)
    (total i : nat) (cs1 cs2 : list str) (first : bool) (w : World) :
  drive synth total i (cs1 ++ cs2) first w =
  let '(evs1, w1) := drive synth total i cs1 first w in
  let '(evs2, w2) :=
    drive synth total (i + length cs1) cs2
      (first && yielded_nothing evs1) w1 in
  (evs1 ++ evs2, w2).
Proof. apply drive_app. Qed.

(** X6. A request on an empty or whitespace-only text does not touch the
    inference layer: the only event is the record of the split into one
    chunk; the primitive is not called, nothing is yielded, no error is
    logged and the state of the layer is unchanged. *)
Theorem streaming_blank_text (World Exn : Type)
    (synth : World -> str -> outcome Exn * World)
    (text : str) (chunk_size : Z) (w : World) :
  blank text = true ->
  synthesize_with_xtts_streaming synth text chunk_size w
  = ([Log (Info_split 1)], w).
Proof.
  intros Hb. unfold synthesize_with_xtts_streaming.
  rewrite (@text_chunks_blank text chunk_size Hb). cbn [length drive].
  now rewrite truthy_strip, Hb.
Qed.

Lemma streaming_blank_text_witness :
  blank (py "   ") = true
  /\ synthesize_with_xtts_streaming always_raises (py "   ") 150 tt
     = ([Log (Info_split 1)], tt).
Proof.
  split; [reflexivity|]. apply streaming_blank_text. reflexivity.
Defined.

(** X7. For a text that is not whitespace-only, the primitive is called on
    every chunk of the split, in order, whatever fails on the way, and it
    never receives an empty, whitespace-only or untrimmed string. *)
Theorem streaming_calls_every_chunk (World Exn : Type)
    (synth : World -> str -> outcome Exn * World)
    (text : str) (chunk_size : Z) (w : World) :
  blank text = false ->
  calls (fst (synthesize_with_xtts_streaming synth text chunk_size w))
  = split text chunk_size
  /\ Forall (fun c => c <> [] /\ blank c = false /\ strip c = c)
       (calls (fst (synthesize_with_xtts_streaming synth text chunk_size w))).
Proof.
  intros Hb. rewrite streaming_events. cbn [calls]. rewrite drive_calls.
  pose proof (@text_chunks_trimmed text chunk_size Hb) as T.
  rewrite (attempted_trimmed T). split; [reflexivity|].
  eapply Forall_impl; [|exact T].
  intros c [Hc Hs]. repeat split; try assumption. intros ->. discriminate.
Qed.

Lemma streaming_calls_every_chunk_witness :
  blank (py "One. Two. Three.") = false
  /\ calls (fst (synthesize_with_xtts_streaming always_raises
                   (py "One. Two. Three.") 150 tt))
     = split (py "One. Two. Three.") 150
  /\ Forall (fun c => c <> [] /\ blank c = false /\ strip c = c)
       (calls (fst (synthesize_with_xtts_streaming always_raises
                      (py "One. Two. Three.") 150 tt))).
Proof.
  split; [reflexivity|].
  apply streaming_calls_every_chunk. reflexivity.
Defined.

(** X8. The "first audio chunk ready" record is logged once in a run that
    yields audio and never in a run that yields none: chunks that fail
    before the first success do not use it up. *)
Theorem first_chunk_logged_once (World Exn : Type)
    (synth : World -> str -> outcome Exn * World)
    (text : str) (chunk_size : Z) (w : World) :
  first_chunk_logs (fst (synthesize_with_xtts_streaming synth text
                           chunk_size w))
  = if yielded_nothing (fst (synthesize_with_xtts_streaming synth text
                               chunk_size w))
    then 0 else 1.
Proof.
  rewrite streaming_events. cbn [first_chunk_logs].
  rewrite drive_first_chunk_logs. unfold yielded_nothing. cbn [yields andb].
  now destruct (yields _).
Qed.

(** * The transcript of the STT service *)

Lemma blank_strip_eq (s : str) : blank (strip s) = blank s.
Proof.
  destruct (blank s) eqn:E.
  - now rewrite (strip_blank _ E).
  - apply blank_strip. now rewrite truthy_strip, E.
Qed.

Lemma squash_strip (s : str) : squash (strip s) = squash s.
Proof.
  destruct (strip_decompose s) as (w1 & w2 & H1 & H2 & E).
  rewrite E at 2. rewrite !squash_app, (squash_blank _ H1), (squash_blank _ H2).
  now rewrite app_nil_r.
Qed.

Lemma join_cons (sep part : str) (parts : list str) :
  parts <> [] -> join sep (part :: parts) = part ++ sep ++ join sep parts.
Proof. destruct parts; [congruence | reflexivity]. Qed.

Lemma blank_join (sep : str) (parts : list str) :
  blank sep = true -> blank (join sep parts) = forallb blank parts.
Proof.
  intros Hs. induction parts as [|p parts IH]; [reflexivity|].
  destruct parts as [|q parts].
  - simpl. now rewrite andb_true_r.
  - rewrite join_cons by discriminate.
    rewrite !blank_app, Hs, IH. reflexivity.
Qed.

Lemma squash_join (sep : str) (parts : list str) :
  blank sep = true -> squash (join sep parts) = squash (concat parts).
Proof.
  intros Hs. induction parts as [|p parts IH]; [reflexivity|].
  destruct parts as [|q parts].
  - simpl. now rewrite app_nil_r.
  - rewrite join_cons by discriminate.
    change (concat (p :: q :: parts)) with (p ++ concat (q :: parts)).
    rewrite !squash_app, (squash_blank _ Hs), IH. reflexivity.
Qed.

Lemma squash_concat_strip (segments : list str) :
  squash (concat (map strip segments)) = squash (concat segments).
Proof.
  induction segments as [|s ss IH]; [reflexivity|].
  cbn [map concat]. now rewrite !squash_app, squash_strip, IH.
Qed.

(** A trimmed string starts and ends with a character that is not
    whitespace. *)
Lemma trimmed_ends (p : str) :
  trimmed p ->
  (exists c r, p = c :: r /\ is_space c = false)
  /\ (exists r c, p = r ++ [c] /\ is_space c = false).
Proof.
  intros [Hb Hs].
  assert (T : truthy (strip p) = true) by now rewrite truthy_strip, Hb.
  split.
  - unfold strip in Hs, T. destruct (lstrip p) as [|c r] eqn:E.
    + discriminate.
    + pose proof (drop_while_stop _ _ E) as Hc.
      rewrite rstrip_cons in Hs by exact Hc. now exists c, (rstrip r).
  - unfold strip, rstrip in Hs, T.
    destruct (drop_while is_space (rev (lstrip p))) as [|c d] eqn:E.
    + discriminate.
    + pose proof (drop_while_stop _ _ E) as Hc.
      simpl in Hs. now exists (rev d), c.
Qed.

Lemma join_ends (sep : str) (parts : list str) :
  parts <> [] -> Forall trimmed parts ->
  (exists c r, join sep parts = c :: r /\ is_space c = false)
  /\ (exists r c, join sep parts = r ++ [c] /\ is_space c = false).
Proof.
  intros Hn H. induction H as [|p parts Hp _ IH]; [congruence|].
  destruct (trimmed_ends Hp) as [(c & r & Ec & Hc) (r' & c' & Ec' & Hc')].
  destruct parts as [|q parts].
  - simpl. split; [now exists c, r | now exists r', c'].
  - rewrite join_cons by discriminate.
    destruct IH as [_ (r2 & c2 & E2 & H2)]; [discriminate|].
    split.
    + exists c, (r ++ sep ++ join sep (q :: parts)). now rewrite Ec.
    + exists (p ++ sep ++ r2), c2. rewrite E2.
      now rewrite <- !app_assoc.
Qed.

Lemma blank_text_parts (segments : list str) :
  forallb blank (text_parts segments) = forallb blank segments.
Proof.
  unfold text_parts. induction segments as [|s ss IH]; [reflexivity|].
  cbn [map forallb]. now rewrite blank_strip_eq, IH.
Qed.

Lemma forallb_blank_Forall (segments : list str) :
  forallb blank segments = true <->
  Forall (fun s => blank s = true) segments.
Proof.
  induction segments as [|s ss IH]; simpl.
  - split; [constructor | reflexivity].
  - rewrite andb_true_iff, IH. split.
    + intros [H1 H2]. now constructor.
    + intros H. inversion H; subst. now split.
Qed.

(** X9. The transcript has no whitespace at either end, and it is empty
    exactly when every segment is whitespace-only (in particular when the
    model yields no segment). *)
Theorem full_text_trimmed (segments : list str) :
  strip (full_text segments) = full_text segments
  /\ (full_text segments = [] <->
      Forall (fun s => blank s = true) segments).
Proof.
  unfold full_text. split; [apply strip_strip|].
  assert (E : blank (join (py " ") (text_parts segments))
              = forallb blank segments).
  { rewrite blank_join by reflexivity. apply blank_text_parts. }
  pose proof (truthy_strip (join (py " ") (text_parts segments))) as T.
  rewrite E in T. rewrite <- forallb_blank_Forall.
  destruct (strip _); destruct (forallb blank segments);
    simpl in T; split; congruence.
Qed.

(** X10. The transcript keeps every character of the segments that is not
    whitespace, in order, and adds none: only whitespace is removed or
    inserted. *)
Theorem full_text_keeps_characters (segments : list str) :
  squash (full_text segments) = squash (concat segments).
Proof.
  unfold full_text, text_parts.
  rewrite squash_strip, squash_join by reflexivity.
  apply squash_concat_strip.
Qed.

(** X11. When no segment is whitespace-only, the transcript is the trimmed
    texts of the segments separated by exactly one space; the final
    [strip] removes nothing. *)
Theorem full_text_single_spaces (segments : list str) :
  Forall (fun s => blank s = false) segments ->
  full_text segments = join (py " ") (map strip segments).
Proof.
  intros H. unfold full_text, text_parts.
  destruct segments as [|s ss]; [reflexivity|].
  assert (T : Forall trimmed (map strip (s :: ss))).
  { apply Forall_map. eapply Forall_impl; [|exact H].
    intros x Hx. apply trimmed_strip. now rewrite truthy_strip, Hx. }
  destruct (@join_ends (py " ") (map strip (s :: ss))) as
    [(c & r & Ec & Hc) (r' & c' & Ec' & Hc')]; [discriminate | exact T |].
  remember (join (py " ") (map strip (s :: ss))) as J eqn:EJ. clear EJ.
  unfold strip, lstrip. rewrite Ec at 1. cbn [drop_while]. rewrite Hc.
  rewrite <- Ec, Ec'. now apply rstrip_snoc.
Qed.

Lemma full_text_single_spaces_witness :
  Forall (fun s => blank s = false) [py " Hello there."; py " How are you?"]
  /\ full_text [py " Hello there."; py " How are you?"]
     = py "Hello there. How are you?".
Proof.
  split; [repeat constructor|].
  apply (@full_text_single_spaces [py " Hello there."; py " How are you?"]).
  repeat constructor.
Defined.

(** * The reference path *)

Lemma str_eqb_eq (a b : str) : str_eqb a b = true <-> a = b.
Proof.
  revert b. induction a as [|x a IH]; intros [|y b]; simpl;
    try (split; [discriminate | congruence]); [tauto|].
  rewrite andb_true_iff, N.eqb_eq, IH. split.
  - now intros [-> ->].
  - intros H; injection H as -> ->. now split.
Qed.

Lemma str_eqb_refl (a : str) : str_eqb a a = true.
Proof. now apply str_eqb_eq. Qed.

Section ReferencePathFacts.
Variable isabs : str -> bool.
Variable path_join : str -> list str -> str.
Variable abspath : str -> str.
Variable path_exists : str -> bool.
Variable current_dir : str.
Variable project_root : str.

Lemma first_existing_sound (paths : list str) :
  first_existing abspath path_exists paths = []
  \/ path_exists (first_existing abspath path_exists paths) = true.
Proof.
  induction paths as [|p paths IH]; simpl; [now left|].
  destruct (path_exists (abspath p)) eqn:E; [now right | exact IH].
Qed.

Lemma first_existing_none (paths : list str) :
  (forall p, abspath p <> []) ->
  first_existing abspath path_exists paths = [] ->
  Forall (fun p => path_exists (abspath p) = false) paths.
Proof.
  intros Hne. induction paths as [|p paths IH]; simpl; [constructor|].
  destruct (path_exists (abspath p)) eqn:E.
  - intros H. now apply Hne in H.
  - intros H. constructor; [exact E | now apply IH].
Qed.
End ReferencePathFacts.

(** X12. The resolved reference path is empty or names a file that exists
    (taking that a path that exists still exists once made absolute): the
    synthesis gets no path, or a non-empty path of an existing file. *)
Theorem resolved_path_exists
    (isabs : str -> bool) (path_join : str -> list str -> str)
    (abspath : str -> str) (path_exists : str -> bool)
    (current_dir project_root reference_path : str) :
  (forall p, path_exists p = true -> path_exists (abspath p) = true) ->
  (resolved_ref_path isabs path_join abspath path_exists current_dir
     project_root reference_path = []
   \/ path_exists (resolved_ref_path isabs path_join abspath path_exists
                     current_dir project_root reference_path) = true)
  /\ match reference_argument isabs path_join abspath path_exists
             current_dir project_root reference_path with
     | Some p => p <> [] /\ path_exists p = true
     | None => True
     end.
Proof.
  intros Habs.
  assert (H : resolved_ref_path isabs path_join abspath path_exists
                current_dir project_root reference_path = []
              \/ path_exists
                   (resolved_ref_path isabs path_join abspath path_exists
                      current_dir project_root reference_path) = true).
  { unfold resolved_ref_path.
    destruct reference_path as [|c r] eqn:E; [now left|]. rewrite <- E.
    replace (truthy reference_path) with true by now rewrite E.
    destruct (isabs reference_path); cbn [negb].
    - destruct (path_exists reference_path) eqn:X; [now right | now left].
    - destruct (path_exists (path_join project_root [reference_path])) eqn:X1;
        [right; now apply Habs|].
      destruct (path_exists (path_join current_dir [reference_path])) eqn:X2;
        [right; now apply Habs|].
      apply first_existing_sound. }
  split; [exact H|].
  unfold reference_argument.
  destruct (resolved_ref_path _ _ _ _ _ _ _) as [|c r] eqn:E; cbn [truthy].
  - exact I.
  - destruct H as [H|H]; [discriminate|]. split; [discriminate | exact H].
Qed.

Lemma resolved_path_exists_witness :
  (forall p, toy_exists p = true -> toy_exists (toy_abspath p) = true)
  /\ reference_argument toy_isabs toy_join toy_abspath toy_exists
       (py "/app/services/tts_service") (py "/app")
       (py "voice_references/default.wav")
     = Some (py "/app/voice_references/default.wav")
  /\ toy_exists (py "/app/voice_references/default.wav") = true.
Proof.
  assert (H : forall p, toy_exists p = true ->
                        toy_exists (toy_abspath p) = true).
  { intros p Hp. unfold toy_abspath.
    destruct (toy_isabs p) eqn:A; [exact Hp|].
    apply str_eqb_eq in Hp. subst p. discriminate. }
  split; [exact H|].
  pose proof (@resolved_path_exists toy_isabs toy_join toy_abspath toy_exists
                (py "/app/services/tts_service") (py "/app")
                (py "voice_references/default.wav") H) as [_ R].
  split; [reflexivity|].
  change (reference_argument toy_isabs toy_join toy_abspath toy_exists
            (py "/app/services/tts_service") (py "/app")
            (py "voice_references/default.wav"))
    with (Some (py "/app/voice_references/default.wav")) in R.
  exact (proj2 R).
Defined.

(** X13. The default voice is used for a given reference path only when
    the file is in none of the places searched: for an absolute path, the
    path itself; for a relative one, the project root, the directory of the
    service, its parent, its grandparent and the working directory
    ([abspath] never returns the empty string). *)
Theorem default_voice_only_when_missing
    (isabs : str -> bool) (path_join : str -> list str -> str)
    (abspath : str -> str) (path_exists : str -> bool)
    (current_dir project_root reference_path : str) :
  (forall p, abspath p <> []) ->
  reference_path <> [] ->
  reference_argument isabs path_join abspath path_exists current_dir
    project_root reference_path = None ->
  if isabs reference_path
  then path_exists reference_path = false
  else
    path_exists (path_join project_root [reference_path]) = false
    /\ path_exists (path_join current_dir [reference_path]) = false
    /\ Forall (fun p => path_exists (abspath p) = false)
         [path_join project_root [reference_path];
          path_join current_dir [py ".."; py ".."; reference_path];
          path_join current_dir [py ".."; reference_path];
          reference_path].
Proof.
  intros Hne Hr. unfold reference_argument.
  destruct (resolved_ref_path _ _ _ _ _ _ _) as [|c r] eqn:E;
    cbn [truthy]; [intros _ | discriminate].
  unfold resolved_ref_path in E.
  destruct reference_path as [|c r] eqn:Er; [congruence|]. rewrite <- Er in *.
  replace (truthy reference_path) with true in E by now rewrite Er.
  destruct (isabs reference_path); cbn [negb] in E.
  - destruct (path_exists reference_path); [congruence | reflexivity].
  - destruct (path_exists (path_join project_root [reference_path])) eqn:X1;
      [now apply Hne in E|].
    destruct (path_exists (path_join current_dir [reference_path])) eqn:X2;
      [now apply Hne in E|].
    split; [reflexivity|]. split; [reflexivity|].
    now apply first_existing_none.
Qed.

Lemma default_voice_only_when_missing_witness :
  (forall p, toy_abspath p <> [])
  /\ py "missing.wav" <> []
  /\ reference_argument toy_isabs toy_join toy_abspath toy_exists
       (py "/app/services/tts_service") (py "/app") (py "missing.wav") = None
  /\ toy_exists (toy_join (py "/app") [py "missing.wav"]) = false.
Proof.
  assert (H : forall p, toy_abspath p <> []).
  { intros p. unfold toy_abspath.
    destruct p as [|c p]; cbn [toy_isabs]; [discriminate|].
    destruct (c =? 47)%N; discriminate. }
  split; [exact H|]. split; [discriminate|]. split; [reflexivity|].
  pose proof (@default_voice_only_when_missing toy_isabs toy_join toy_abspath
                toy_exists (py "/app/services/tts_service") (py "/app")
                (py "missing.wav") H) as R.
  cbv beta in R.
  change (toy_isabs (py "missing.wav")) with false in R.
  cbv iota in R. apply R; [discriminate | reflexivity].
Defined.

(** * The cached model and the synthesis of one text *)

Section XttsFacts.
Variable Model : Type.
Variable Exn : Type.
Variable Env : Type.
Variable tts_importable : bool.
Variable ImportError : Exn.
Variable load_model : str -> FS -> Env -> (model_obj Model + Exn) * FS * Env.
Variable load_model' : str -> FS -> Env -> (model_obj Model + Exn) * FS * Env.
Variable tts_to_file :
  model_obj Model -> str -> str -> option str -> str -> FS -> Env ->
  option Exn * FS * Env.
Variable named_temporary_file : FS -> Env -> str * Env.
Variable FileNotFoundError : Exn.

Local Abbreviation gen :=
  (generate tts_to_file named_temporary_file FileNotFoundError).
Local Abbreviation synthesize loader :=
  (synthesize_with_xtts tts_importable ImportError loader tts_to_file
     named_temporary_file FileNotFoundError).

Lemma remove_temp_gone (temp_output : str) (fs : FS) :
  remove_temp temp_output fs temp_output = None.
Proof.
  unfold remove_temp, os_path_exists, os_unlink.
  destruct (fs temp_output) eqn:E; [now rewrite str_eqb_refl | exact E].
Qed.

Lemma remove_temp_other (temp_output p : str) (fs : FS) :
  p <> temp_output -> remove_temp temp_output fs p = fs p.
Proof.
  intros H. unfold remove_temp, os_unlink.
  destruct (os_path_exists temp_output fs); [|reflexivity].
  destruct (str_eqb p temp_output) eqn:E; [|reflexivity].
  now apply str_eqb_eq in E.
Qed.

(** What [generate] does to the cached model: the network stays, the steps
    follow [reduce_steps] and [restore_steps]. *)
Lemma generate_cache (text : str) (ref out : option str) (language : str)
    (stream : bool) (model : model_obj Model) (st : xtts_state Model Env) :
  exists model',
    _model_cache (snd (gen text ref out language stream model st))
    = Some model'
    /\ net model' = net model
    /\ _device (snd (gen text ref out language stream model st))
       = _device st.
Proof.
  unfold generate, reduce_steps, restore_steps.
  destruct (named_temporary_file (files st) (env st)) as [temp env1].
  destruct (inference_steps model) as [s|];
    [destruct (negb (s =? 0)%Z && (4 <? s)%Z)|];
    destruct (tts_to_file _ _ _ _ _ _ _) as [[[e|] fs2] env2];
    try destruct (fs2 temp); cbn; eauto.
Qed.

Lemma cached_model_warm (device : str) (st : xtts_state Model Env) :
  warm device st -> cached_model load_model device st
                    = cached_model load_model' device st
                    /\ exists model, _model_cache st = Some model
                       /\ cached_model load_model device st = (inl model, st).
Proof.
  intros (model & Hc & Hd). unfold cached_model. rewrite Hc, Hd.
  split; [reflexivity | now exists model].
Qed.

Lemma warm_generate (device text : str) (ref out : option str)
    (language : str) (stream : bool) (model : model_obj Model)
    (st : xtts_state Model Env) :
  device_differs (_device st) device = false ->
  warm device (snd (gen text ref out language stream model st)).
Proof.
  intros Hd.
  destruct (generate_cache text ref out language stream model st)
    as (model' & Hc & _ & Hdev).
  exists model'. split; [exact Hc | now rewrite Hdev].
Qed.

Lemma warm_synthesize (device text : str) (ref out : option str)
    (language : str) (stream : bool) (st : xtts_state Model Env) :
  warm device st ->
  synthesize load_model text ref out device language stream st
  = synthesize load_model' text ref out device language stream st
  /\ warm device
       (snd (synthesize load_model text ref out device language stream st))
  /\ forall model, _model_cache st = Some model ->
       exists model',
         _model_cache
           (snd (synthesize load_model text ref out device language stream st))
         = Some model'
         /\ net model' = net model.
Proof.
  intros W. pose proof W as (m0 & Hc0 & Hd).
  destruct (cached_model_warm W) as (E & model & Hc & Em).
  unfold synthesize_with_xtts. rewrite <- E, Em.
  destruct tts_importable; cbn [negb].
  - split; [reflexivity|]. split; [now apply warm_generate|].
    intros m Hm. rewrite Hc in Hm. injection Hm as <-.
    destruct (generate_cache text ref out language stream model st)
      as (model' & H1 & H2 & _).
    now exists model'.
  - split; [reflexivity|]. split; [exact W|].
    intros m Hm. now exists m.
Qed.
End XttsFacts.

Section XttsProperties.
Variable Model : Type.
Variable Exn : Type.
Variable Env : Type.
Variable tts_importable : bool.
Variable ImportError : Exn.
Variable load_model : str -> FS -> Env -> (model_obj Model + Exn) * FS * Env.
Variable load_model' : str -> FS -> Env -> (model_obj Model + Exn) * FS * Env.
Variable tts_to_file :
  model_obj Model -> str -> str -> option str -> str -> FS -> Env ->
  option Exn * FS * Env.
Variable named_temporary_file : FS -> Env -> str * Env.
Variable FileNotFoundError : Exn.

Local Abbreviation gen :=
  (generate tts_to_file named_temporary_file FileNotFoundError).
Local Abbreviation synthesize loader :=
  (synthesize_with_xtts tts_importable ImportError loader tts_to_file
     named_temporary_file FileNotFoundError).
Local Abbreviation chunk_synth loader :=
  (synthesize_chunk tts_importable ImportError loader tts_to_file
     named_temporary_file FileNotFoundError).

(** X14. The temporary file of a synthesis does not outlive it: whether
    the model returns or raises, whether the audio file can be read or not,
    and whatever the output path is, the path of the temporary file does
    not exist when the synthesis of lines 162-294 is left. *)
Theorem temporary_file_removed (text : str) (ref out : option str)
    (language : str) (stream : bool) (model : model_obj Model)
    (st : xtts_state Model Env) :
  files (snd (gen text ref out language stream model st))
    (fst (named_temporary_file (files st) (env st))) = None.
Proof.
  unfold generate.
  destruct (named_temporary_file (files st) (env st)) as [temp env1].
  destruct (reduce_steps model) as [model1 optimized].
  destruct (tts_to_file _ _ _ _ _ _ _) as [[[e|] fs2] env2];
    [|destruct (fs2 temp)]; cbn [snd fst files]; apply remove_temp_gone.
Qed.

(** X15. In non-streaming mode with an output path, the bytes returned are
    the bytes saved: after a synthesis that returned, the output path holds
    exactly the returned audio. *)
Theorem output_file_holds_returned_audio (text : str) (ref : option str)
    (p language : str) (model : model_obj Model)
    (st st' : xtts_state Model Env) (audio : bytes) :
  p <> [] ->
  p <> fst (named_temporary_file (files st) (env st)) ->
  gen text ref (Some p) language false model st = (Returned audio, st') ->
  files st' p = Some audio.
Proof.
  intros Hp Ht. unfold generate.
  destruct (named_temporary_file (files st) (env st)) as [temp env1].
  cbn [fst snd] in *.
  destruct (reduce_steps model) as [model1 optimized].
  destruct (tts_to_file _ _ _ _ _ _ _) as [[[e|] fs2] env2];
    [discriminate|].
  destruct (fs2 temp) as [data|] eqn:E; [|discriminate].
  intros H; injection H as <- <-. cbn [files].
  rewrite remove_temp_other by exact Ht.
  destruct p as [|c p]; [congruence|]. cbn [truthy].
  unfold write_file. now rewrite str_eqb_refl.
Qed.

(** X16. The inference steps are not put back to what they were.  A model
    with more than four steps is run with four: that is the model
    [tts_to_file] gets.  When [tts_to_file] raises, the call raises the same
    exception and the cached model is left with the steps it was run with
    (four).  When [tts_to_file] returns, the steps are set to six, whether
    the audio file is then read (the call returns its bytes) or missing (the
    call raises [FileNotFoundError]).  A model with four steps or fewer, or
    without the attribute, is run and left as it is, so the four steps a
    failure leaves stay for every later call.  The network itself is
    untouched. *)
Theorem inference_steps_after_synthesis (text : str) (ref out : option str)
    (language : str) (stream : bool) (model : model_obj Model)
    (st : xtts_state Model Env) :
  let speaker_wav :=
    match ref with
    | Some p => if truthy p && os_path_exists p (files st)
                then Some p else None
    | None => None
    end in
  let temp_output := fst (named_temporary_file (files st) (env st)) in
  let env1 := snd (named_temporary_file (files st) (env st)) in
  let reduced := match inference_steps model with
                 | Some s => (4 <? s)%Z
                 | None => false
                 end in
  let run_with :=
    {| net := net model;
       inference_steps := if reduced then Some 4%Z
                          else inference_steps model |} in
  let call :=
    tts_to_file run_with text temp_output speaker_wav language
      (write_file temp_output [] (files st)) env1 in
  let result := gen text ref out language stream model st in
  exists model',
    _model_cache (snd result) = Some model'
    /\ net model' = net model
    /\ match fst (fst call) with
       | Some e =>
           fst result = Raised e
           /\ inference_steps model' = inference_steps run_with
       | None =>
           inference_steps model'
           = (if reduced then Some 6%Z else inference_steps model)
           /\ match snd (fst call) temp_output with
              | Some audio_data => fst result = Returned audio_data
              | None => fst result = Raised FileNotFoundError
              end
       end.
Proof.
  destruct model as [n steps]. unfold generate, reduce_steps, restore_steps.
  cbn [net inference_steps].
  destruct (named_temporary_file (files st) (env st)) as [temp env1].
  cbn [fst snd].
  destruct steps as [s|].
  - destruct (4 <? s)%Z eqn:L.
    + assert (Z : (s =? 0)%Z = false) by (apply Z.ltb_lt in L; lia).
      rewrite Z. cbn [negb andb net].
      destruct (tts_to_file _ _ _ _ _ _ _) as [[[e|] fs2] env2];
        cbn [fst snd]; [|destruct (fs2 temp)]; cbn; eexists;
        repeat split; reflexivity.
    + rewrite andb_false_r.
      destruct (tts_to_file _ _ _ _ _ _ _) as [[[e|] fs2] env2];
        cbn [fst snd]; [|destruct (fs2 temp)]; cbn; eexists;
        repeat split; reflexivity.
  - destruct (tts_to_file _ _ _ _ _ _ _) as [[[e|] fs2] env2];
      cbn [fst snd]; [|destruct (fs2 temp)]; cbn; eexists;
      repeat split; reflexivity.
Qed.

Lemma returned_warm (device text : str) (ref out : option str)
    (language : str) (stream : bool) (st : xtts_state Model Env)
    (audio : bytes) :
  fst (synthesize load_model text ref out device language stream st)
  = Returned audio ->
  warm device
    (snd (synthesize load_model text ref out device language stream st)).
Proof.
  unfold synthesize_with_xtts.
  destruct tts_importable; cbn [negb]; [|discriminate].
  assert (D : forall d, device_differs (Some d) d = false).
  { intros d. unfold device_differs. now rewrite str_eqb_refl. }
  unfold cached_model.
  destruct (_model_cache st) as [m|] eqn:Hc.
  - destruct (device_differs (_device st) device) eqn:Hd.
    + destruct (load_model device (files st) (env st)) as [[[tts|e] fs'] env'];
        [|discriminate].
      intros _. apply warm_generate. apply D.
    + intros _. now apply warm_generate.
  - destruct (load_model device (files st) (env st)) as [[[tts|e] fs'] env'];
      [|discriminate].
    intros _. apply warm_generate. apply D.
Qed.

(** X17. The model is loaded once and reused.  After a call that returned
    audio for a device, the module is warm for that device.  A call on a
    warm module for its device does not load: its result and the state it
    leaves do not depend on the loader; the module stays warm, also when
    the synthesis raises, and keeps the same network. *)
Theorem model_loaded_once (device text : str) (ref out : option str)
    (language : str) (stream : bool) (st : xtts_state Model Env) :
  (forall audio,
      fst (synthesize load_model text ref out device language stream st)
      = Returned audio ->
      warm device
        (snd (synthesize load_model text ref out device language stream st)))
  /\ (warm device st ->
      synthesize load_model text ref out device language stream st
      = synthesize load_model' text ref out device language stream st
      /\ warm device
           (snd (synthesize load_model text ref out device language stream
                   st))
      /\ forall model, _model_cache st = Some model ->
           exists model',
             _model_cache
               (snd (synthesize load_model text ref out device language
                       stream st))
             = Some model'
             /\ net model' = net model).
Proof.
  split.
  - intros audio. apply returned_warm.
  - apply warm_synthesize.
Qed.

(** X18. A failed reload keeps the old model under the new device.  When a
    model is cached for one device and a call for another device fails to
    load, the call raises the loader's exception, the old model stays in
    the cache and [_device] is already the new device: the module is warm
    for the new device, and the next call on it runs on the old model
    without loading. *)
Theorem failed_reload_keeps_old_model (device text text2 : str)
    (ref out ref2 out2 : option str) (language : str) (stream stream2 : bool)
    (st : xtts_state Model Env) (model : model_obj Model) (e : Exn)
    (fs' : FS) (env' : Env) :
  tts_importable = true ->
  _model_cache st = Some model ->
  device_differs (_device st) device = true ->
  load_model device (files st) (env st) = (inr e, fs', env') ->
  let st' := {| _model_cache := Some model; _device := Some device;
                files := fs'; env := env' |} in
  synthesize load_model text ref out device language stream st
  = (Raised e, st')
  /\ warm device st'
  /\ synthesize load_model text2 ref2 out2 device language stream2 st'
     = synthesize load_model' text2 ref2 out2 device language stream2 st'
  /\ exists model',
       _model_cache
         (snd (synthesize load_model text2 ref2 out2 device language stream2
                 st'))
       = Some model'
       /\ net model' = net model.
Proof.
  intros Hi Hc Hd Hl st'.
  assert (W : warm device st').
  { exists model. split; [reflexivity|].
    unfold st', device_differs. cbn [_device]. now rewrite str_eqb_refl. }
  split.
  - unfold synthesize_with_xtts, cached_model.
    rewrite Hi, Hc, Hd, Hl. reflexivity.
  - split; [exact W|].
    destruct (@warm_synthesize Model Exn Env tts_importable ImportError
                load_model load_model' tts_to_file named_temporary_file
                FileNotFoundError device text2 ref2 out2 language stream2
                st' W) as (E & _ & N).
    split; [exact E|]. now apply N.
Qed.
End XttsProperties.

Section StreamingOnWarmModule.
Variable World : Type.
Variable Exn : Type.
Variable synth synth' : World -> str -> outcome Exn * World.
Variable I : World -> Prop.
Hypothesis synth_agree : forall w c, I w -> synth w c = synth' w c.
Hypothesis synth_keeps : forall w c, I w -> I (snd (synth w c)).

(** Two primitives that agree on the states of an invariant the first one
    keeps drive the same run from such a state. *)
Lemma drive_invariant (total : nat) (chunks : list str) :
  forall (i : nat) (first : bool) (w : World),
    I w ->
    drive synth total i chunks first w = drive synth' total i chunks first w
    /\ I (snd (drive synth total i chunks first w)).
Proof.
  induction chunks as [|c chunks IH]; intros i first w Hw.
  - now split.
  - cbn [drive]. destruct (negb (truthy (strip c))); [now apply IH|].
    rewrite <- (synth_agree c Hw). pose proof (synth_keeps c Hw) as K.
    destruct (synth w c) as [[a|e] w']; cbn [snd] in K.
    + destruct (IH (S i) false w' K) as [E K']. rewrite <- E.
      now destruct (drive synth total (S i) chunks false w').
    + destruct (IH (S i) first w' K) as [E K']. rewrite <- E.
      now destruct (drive synth total (S i) chunks first w').
Qed.
End StreamingOnWarmModule.

(** X19. A streaming request on a warm module loads nothing: every chunk is
    synthesized on the cached model, so the whole run (events and final
    state) does not depend on the loader, and the module is still warm at
    the end, whichever chunks fail. *)
Theorem streaming_on_warm_module (Model Exn Env : Type)
    (tts_importable : bool) (ImportError : Exn)
    (load_model load_model' :
       str -> FS -> Env -> (model_obj Model + Exn) * FS * Env)
    (tts_to_file :
       model_obj Model -> str -> str -> option str -> str -> FS -> Env ->
       option Exn * FS * Env)
    (named_temporary_file : FS -> Env -> str * Env)
    (FileNotFoundError : Exn)
    (ref : option str) (device language text : str) (chunk_size : Z)
    (st : xtts_state Model Env) :
  warm device st ->
  synthesize_with_xtts_streaming
    (synthesize_chunk tts_importable ImportError load_model tts_to_file
       named_temporary_file FileNotFoundError ref device language)
    text chunk_size st
  = synthesize_with_xtts_streaming
      (synthesize_chunk tts_importable ImportError load_model' tts_to_file
         named_temporary_file FileNotFoundError ref device language)
      text chunk_size st
  /\ warm device
       (snd (synthesize_with_xtts_streaming
               (synthesize_chunk tts_importable ImportError load_model
                  tts_to_file named_temporary_file FileNotFoundError ref
                  device language)
               text chunk_size st)).
Proof.
  intros W. unfold synthesize_with_xtts_streaming.
  destruct (@drive_invariant (xtts_state Model Env) Exn
              (synthesize_chunk tts_importable ImportError load_model
                 tts_to_file named_temporary_file FileNotFoundError ref
                 device language)
              (synthesize_chunk tts_importable ImportError load_model'
                 tts_to_file named_temporary_file FileNotFoundError ref
                 device language)
              (warm device))
    with (total := length (text_chunks text chunk_size)) (i := 0)
         (chunks := text_chunks text chunk_size) (first := true) (w := st)
    as [E K].
  - intros w c Hw. unfold synthesize_chunk.
    now apply warm_synthesize.
  - intros w c Hw. unfold synthesize_chunk.
    now apply (@warm_synthesize Model Exn Env tts_importable ImportError
                 load_model load_model').
  - exact W.
  - rewrite <- E.
    destruct (drive _ _ 0 (text_chunks text chunk_size) true st) as [evs w'].
    now split.
Qed.

Lemma full_text_trimmed_witness :
  Forall (fun s => blank s = true) [py "  "; py ""]
  /\ full_text [py "  "; py ""] = [].
Proof.
  assert (H : Forall (fun s => blank s = true) [py "  "; py ""])
    by (repeat constructor).
  split; [exact H|].
  exact (proj2 (proj2 (full_text_trimmed [py "  "; py ""])) H).
Defined.

Lemma output_file_holds_returned_audio_witness :
  py "/out/a.wav" <> []
  /\ py "/out/a.wav"
     <> fst (toy_temporary_file (files toy_on_cpu) (env toy_on_cpu))
  /\ files
       (snd (generate toy_tts_to_file toy_temporary_file tt (py "Hi") None
               (Some (py "/out/a.wav")) (py "en") false
               {| net := tt; inference_steps := Some 6%Z |} toy_on_cpu))
       (py "/out/a.wav")
     = Some [Byte.x52; Byte.x49; Byte.x46; Byte.x46].
Proof.
  split; [discriminate|]. split; [discriminate|].
  apply (@output_file_holds_returned_audio unit unit unit toy_tts_to_file
           toy_temporary_file tt (py "Hi") None (py "/out/a.wav") (py "en")
           {| net := tt; inference_steps := Some 6%Z |} toy_on_cpu);
    [discriminate | discriminate | reflexivity].
Defined.

Lemma model_loaded_once_witness :
  fst (toy_synthesize (py "Hi") None None (py "cpu") (py "en") false toy_cold)
  = Returned [Byte.x52; Byte.x49; Byte.x46; Byte.x46]
  /\ warm (py "cpu") toy_on_cpu
  /\ toy_synthesize (py "Again") None None (py "cpu") (py "en") false
       toy_on_cpu
     = synthesize_with_xtts true tt toy_load_fails toy_tts_to_file
         toy_temporary_file tt (py "Again") None None (py "cpu") (py "en")
         false toy_on_cpu.
Proof.
  split; [reflexivity|].
  assert (W : warm (py "cpu") toy_on_cpu).
  { apply (proj1 (@model_loaded_once unit unit unit true tt toy_load
                    toy_load_fails toy_tts_to_file toy_temporary_file tt
                    (py "cpu") (py "Hi") None None (py "en") false toy_cold)
             [Byte.x52; Byte.x49; Byte.x46; Byte.x46]).
    reflexivity. }
  split; [exact W|].
  exact (proj1 (proj2 (@model_loaded_once unit unit unit true tt toy_load
                         toy_load_fails toy_tts_to_file toy_temporary_file
                         tt (py "cpu") (py "Again") None None (py "en")
                         false toy_on_cpu) W)).
Defined.

Lemma failed_reload_keeps_old_model_witness :
  _model_cache toy_on_cpu = Some {| net := tt; inference_steps := Some 6%Z |}
  /\ device_differs (_device toy_on_cpu) (py "cuda") = true
  /\ toy_load_fails (py "cuda") (files toy_on_cpu) (env toy_on_cpu)
     = (inr tt, files toy_on_cpu, tt)
  /\ fst (synthesize_with_xtts true tt toy_load_fails toy_tts_to_file
            toy_temporary_file tt (py "Hi") None None (py "cuda") (py "en")
            false toy_on_cpu)
     = Raised tt
  /\ warm (py "cuda")
       (snd (synthesize_with_xtts true tt toy_load_fails toy_tts_to_file
               toy_temporary_file tt (py "Hi") None None (py "cuda")
               (py "en") false toy_on_cpu)).
Proof.
  do 3 (split; [reflexivity|]).
  destruct (@failed_reload_keeps_old_model unit unit unit true tt
              toy_load_fails toy_load toy_tts_to_file toy_temporary_file tt
              (py "cuda") (py "Hi") (py "Hi") None None None None (py "en")
              false false toy_on_cpu
              {| net := tt; inference_steps := Some 6%Z |} tt
              (files toy_on_cpu) tt eq_refl eq_refl eq_refl eq_refl)
    as (E & W & _).
  rewrite E. split; [reflexivity | exact W].
Defined.

Lemma streaming_on_warm_module_witness :
  warm (py "cpu") toy_on_cpu
  /\ synthesize_with_xtts_streaming
       (synthesize_chunk true tt toy_load toy_tts_to_file toy_temporary_file
          tt None (py "cpu") (py "en"))
       (py "One. Two.") 150 toy_on_cpu
     = synthesize_with_xtts_streaming
         (synthesize_chunk true tt toy_load_fails toy_tts_to_file
            toy_temporary_file tt None (py "cpu") (py "en"))
         (py "One. Two.") 150 toy_on_cpu.
Proof.
  assert (W : warm (py "cpu") toy_on_cpu).
  { exists {| net := tt; inference_steps := Some 6%Z |}.
    split; reflexivity. }
  split; [exact W|].
  exact (proj1 (@streaming_on_warm_module unit unit unit true tt toy_load
                  toy_load_fails toy_tts_to_file toy_temporary_file tt None
                  (py "cpu") (py "en") (py "One. Two.") 150 toy_on_cpu W)).
Defined.

(** * The number of chunks *)

Lemma sentence_chunks_length (n : Z) (s : str * str) :
  length (sentence_chunks n s)
  = if (n <=? len (fst s))%Z && truthy (strip (fst s)) then 2 else 1.
Proof.
  destruct s as [body term]. cbn [fst sentence_chunks].
  now destruct ((n <=? len body)%Z && truthy (strip body)).
Qed.

Lemma sentence_chunks_count (n : Z) (sentences : list (str * str)) :
  length sentences <= length (concat (map (sentence_chunks n) sentences))
  /\ length (concat (map (sentence_chunks n) sentences))
     <= 2 * length sentences.
Proof.
  induction sentences as [|s ss IH]; [simpl; lia|].
  cbn [map concat]. rewrite length_app, sentence_chunks_length.
  cbn [length]. destruct (_ && _); simpl; lia.
Qed.

Lemma sentence_chunks_antitone (n1 n2 : Z) (sentences : list (str * str)) :
  (n1 <= n2)%Z ->
  length (concat (map (sentence_chunks n2) sentences))
  <= length (concat (map (sentence_chunks n1) sentences)).
Proof.
  intros Hn. induction sentences as [|s ss IH]; [simpl; lia|].
  cbn [map concat]. rewrite !length_app, !sentence_chunks_length.
  destruct (n2 <=? len (fst s))%Z eqn:L2.
  - assert (L1 : (n1 <=? len (fst s))%Z = true)
      by (apply Z.leb_le; apply Z.leb_le in L2; lia).
    rewrite L1. lia.
  - cbn [andb]. destruct (_ && _); simpl; lia.
Qed.

Lemma text_chunks_length (text : str) (n : Z) :
  length (text_chunks text n)
  = Nat.max 1
      (length (concat (map (sentence_chunks n)
                         (fst (pair_up (re_split text))))
               ++ last_chunk (snd (pair_up (re_split text))))).
Proof.
  rewrite text_chunks_sentences.
  destruct (concat _ ++ _) as [|c cs]; [reflexivity|].
  cbn [length]. lia.
Qed.

(** X20. The number of chunks, hence of calls of the model, is bounded by
    the sentences of the text: at least one chunk, at least one per
    sentence, and at most two per sentence plus one for the text after the
    last separator. *)
Theorem split_chunk_count (text : str) (chunk_size : Z) :
  1 <= length (split text chunk_size)
  /\ length (fst (pair_up (re_split text)))
     <= length (split text chunk_size)
  /\ length (split text chunk_size)
     <= 2 * length (fst (pair_up (re_split text))) + 1.
Proof.
  unfold split. rewrite text_chunks_length, length_app.
  pose proof (sentence_chunks_count chunk_size
                (fst (pair_up (re_split text)))) as [Lo Hi].
  assert (L : length (last_chunk (snd (pair_up (re_split text)))) <= 1).
  { unfold last_chunk. destruct (truthy _); simpl; lia. }
  lia.
Qed.

(** X21. A larger chunk size never gives more chunks: the size test can
    only cut, and it cuts fewer sentences as [chunk_size] grows. *)
Theorem split_chunk_count_antitone (text : str) (n1 n2 : Z) :
  (n1 <= n2)%Z -> length (split text n2) <= length (split text n1).
Proof.
  intros Hn. unfold split. rewrite !text_chunks_length, !length_app.
  pose proof (sentence_chunks_antitone (fst (pair_up (re_split text))) Hn).
  lia.
Qed.

Lemma split_chunk_count_antitone_witness :
  (10 <= 150)%Z
  /\ length (split (py "Hello. How are you? I am fine.") 150)
     <= length (split (py "Hello. How are you? I am fine.") 10).
Proof.
  split; [lia|]. apply split_chunk_count_antitone. lia.
Defined.
